(** * Resource governance layer of the MCP server: a shallow embedding

    The development follows four classes of the TypeScript sources:

    - [LRUCache]           (utils/cache.ts),
    - [RateLimiter]        (the rate limiter that [security] imports),
    - [SecurityValidator]  ([validatePath] and [validateCommand]),
    - [PerformanceMonitor] ([withConcurrencyLimit]).

    Part I embeds the data model and the operations and fixes the
    vocabulary of the properties; Part II states and proves them.

    Conventions.
    - A JavaScript string that is inspected character by character is the
      list of its UTF-16 code units ([list N]); a string that only serves
      as a key is a Rocq string.
    - [Date.now()] is an explicit argument [now : Z] (milliseconds).
    - Counters and configured limits are integers ([Z]): the
      configuration reads them with [parseInt].
    - A JavaScript [Map] whose iteration order matters is an association
      list in insertion order; a [Map] used as a dictionary is a [gmap].
    - A [throw] is the [Throw] constructor of [result]; a loop that may
      not end takes a bound on its iterations and yields [None] when the
      bound is used up; logging is not modelled. *)

From Stdlib Require Import ZArith NArith Ascii String List Bool Lia.
From stdpp Require Import base option list strings pretty gmap.

Open Scope Z_scope.

(** ** Part I.  The embedding *)

(** *** JavaScript strings *)

Abbreviation jsstring := (list N).

Module Js.

(** The code units of an ASCII literal. *)
Definition str (s : string) : jsstring :=
  map N_of_ascii (list_ascii_of_string s).

Definition chr (a : ascii) : N := N_of_ascii a.

(** [!s] for a string: only the empty string is falsy. *)
Definition falsy (s : jsstring) : bool :=
  match s with [] => true | _ :: _ => false end.

Definition eqb (s t : jsstring) : bool := bool_decide (s = t).

(** [s.startsWith(p)] *)
Fixpoint startsWith (s p : jsstring) {struct p} : bool :=
  match p, s with
  | [], _ => true
  | _ :: _, [] => false
  | a :: p', b :: s' => N.eqb a b && startsWith s' p'
  end.

(** [s.includes(p)] *)
Fixpoint includes (s p : jsstring) : bool :=
  startsWith s p ||
  match s with
  | [] => false
  | _ :: s' => includes s' p
  end.

(** [arr.includes(x)] on an array of strings. *)
Definition arr_includes (arr : list jsstring) (x : jsstring) : bool :=
  existsb (eqb x) arr.

(** [s.split(' ')[0]]: the text before the first space. *)
Fixpoint split_space_head (s : jsstring) : jsstring :=
  match s with
  | [] => []
  | c :: s' => if N.eqb c 32 then [] else c :: split_space_head s'
  end.

(** [args.join(' ')] *)
Fixpoint join_space (args : list jsstring) : jsstring :=
  match args with
  | [] => []
  | [a] => a
  | a :: rest => a ++ 32%N :: join_space rest
  end.

(** Decimal rendering of a number inside a template literal. *)
Definition num (z : Z) : jsstring := str (pretty z).

(** The property the specification calls "contains the sequence [p]". *)
Definition Contains (p s : jsstring) : Prop :=
  ∃ pre post, s = pre ++ p ++ post.

End Js.

(** *** Regular expressions

    The patterns of [security.ts] use literals, classes, concatenation,
    alternation, [*], [+] and a leading [^] only, so [RegExp.test] is
    language membership of some substring.  It is decided with Brzozowski
    derivatives. *)

Module Regex.

Inductive regex : Type :=
| Void
| Eps
| Sym (p : N → bool)
| Cat (r1 r2 : regex)
| Alt (r1 r2 : regex)
| Star (r : regex).

Fixpoint nullable (r : regex) : bool :=
  match r with
  | Void => false
  | Eps => true
  | Sym _ => false
  | Cat r1 r2 => nullable r1 && nullable r2
  | Alt r1 r2 => nullable r1 || nullable r2
  | Star _ => true
  end.

Fixpoint deriv (c : N) (r : regex) : regex :=
  match r with
  | Void => Void
  | Eps => Void
  | Sym p => if p c then Eps else Void
  | Cat r1 r2 =>
      if nullable r1
      then Alt (Cat (deriv c r1) r2) (deriv c r2)
      else Cat (deriv c r1) r2
  | Alt r1 r2 => Alt (deriv c r1) (deriv c r2)
  | Star r1 => Cat (deriv c r1) (Star r1)
  end.

Fixpoint accepts (r : regex) (s : jsstring) : bool :=
  match s with
  | [] => nullable r
  | c :: s' => accepts (deriv c r) s'
  end.

(** The words a pattern matches, as a relation. *)
Inductive lang : regex → jsstring → Prop :=
| lang_eps : lang Eps []
| lang_sym p c : p c = true → lang (Sym p) [c]
| lang_cat r1 r2 s1 s2 : lang r1 s1 → lang r2 s2 → lang (Cat r1 r2) (s1 ++ s2)
| lang_alt_l r1 r2 s : lang r1 s → lang (Alt r1 r2) s
| lang_alt_r r1 r2 s : lang r2 s → lang (Alt r1 r2) s
| lang_star_nil r : lang (Star r) []
| lang_star_cons r s1 s2 : lang r s1 → lang (Star r) s2 → lang (Star r) (s1 ++ s2).

Definition anything : regex := Star (Sym (λ _, true)).

Definition plus (r : regex) : regex := Cat r (Star r).

(** A pattern of the source: its body and whether it starts with [^]. *)
Record RegExp := { anchored : bool; body : regex }.

Definition search (r : regex) : RegExp := {| anchored := false; body := r |}.
Definition at_start (r : regex) : RegExp := {| anchored := true; body := r |}.

(** [pattern.test(s)] (no [g] or [y] flag, so no [lastIndex] state). *)
Definition test (p : RegExp) (s : jsstring) : bool :=
  if anchored p
  then accepts (Cat (body p) anything) s
  else accepts (Cat anything (Cat (body p) anything)) s.

(** Canonicalisation of the [i] flag on one code unit.  For a code unit
    below 128 it is the ASCII upper case; a code unit from 128 on never
    canonicalises to an ASCII one, so it is left as it is. *)
Definition canon (c : N) : N :=
  if ((97 <=? c) && (c <=? 122))%N then (c - 32)%N else c.

Definition one (a : ascii) : regex := Sym (N.eqb (Js.chr a)).
Definition one_i (a : ascii) : regex := Sym (λ c, N.eqb (canon c) (canon (Js.chr a))).

Fixpoint lit (s : string) : regex :=
  match s with
  | EmptyString => Eps
  | String a EmptyString => one a
  | String a s' => Cat (one a) (lit s')
  end.

Fixpoint lit_i (s : string) : regex :=
  match s with
  | EmptyString => Eps
  | String a EmptyString => one_i a
  | String a s' => Cat (one_i a) (lit_i s')
  end.

Definition between (lo hi c : N) : bool := ((lo <=? c) && (c <=? hi))%N.

(** [[a-z]] under the [i] flag. *)
Definition letter_i : regex := Sym (λ c, between 65 90 (canon c)).

(** [\s] *)
Definition is_space (c : N) : bool :=
  (between 9 13 c || N.eqb c 32 || N.eqb c 160 || N.eqb c 5760 ||
   between 8192 8202 c || N.eqb c 8232 || N.eqb c 8233 || N.eqb c 8239 ||
   N.eqb c 8287 || N.eqb c 12288 || N.eqb c 65279).

(** [\w] *)
Definition is_word (c : N) : bool :=
  between 97 122 c || between 65 90 c || between 48 57 c || N.eqb c 95.

Definition one_of (s : string) : regex :=
  Sym (λ c, existsb (N.eqb c) (Js.str s)).

End Regex.

(** *** Results of fallible code *)

Inductive result (E A : Type) : Type :=
| Return (a : A)
| Throw (e : E).
Arguments Return {E A} a.
Arguments Throw {E A} e.

(** Whether a call ended in a [throw]. *)
Definition threw {E A : Type} (x : result E A) : bool :=
  match x with Throw _ => true | Return _ => false end.

(** *** SecurityValidator *)

Module Security.
Import Regex.

(** What the validator imports from the platform: Node's [path] module and
    [String.prototype.toLowerCase].  They are not code of the repository,
    so the validator is stated over any implementation of them. *)
Class Platform := {
  path_normalize : jsstring → jsstring;
  path_isAbsolute : jsstring → bool;
  path_extname : jsstring → jsstring;
  path_resolve : jsstring → jsstring;
  toLowerCase : jsstring → jsstring;
}.

(** The two lists of [securityConfig] ([server/config.ts]) the validator
    reads. *)
Record SecurityConfig := {
  allowedDirectories : list jsstring;
  blockedDirectories : list jsstring;
}.

(** [SecurityValidator.DANGEROUS_PATTERNS], in the order of the source. *)
Definition DANGEROUS_PATTERNS : list RegExp :=
  [ search (lit "..");
    search (lit_i "/etc/passwd");
    search (lit_i "/etc/shadow");
    search (lit_i "/proc/");
    search (lit_i "/sys/");
    search (lit_i "/dev/");
    search (lit_i "/boot/");
    search (lit_i "/root/");
    search (Cat (one "\") (Cat (one "\") (Cat (plus letter_i) (one "$"))));
    at_start (Cat letter_i (Cat (one ":") (one "\")));
    search (Sym (N.eqb 0));
    search (Sym (λ c, between 0 31 c || between 127 159 c)) ].

(** [SecurityValidator.DANGEROUS_COMMANDS] *)
Definition DANGEROUS_COMMANDS : list jsstring :=
  map Js.str
    [ "rm"; "rmdir"; "del"; "format"; "fdisk";
      "mkfs"; "dd"; "shutdown"; "reboot"; "halt";
      "poweroff"; "init"; "kill"; "killall";
      "sudo"; "su"; "passwd"; "chown"; "chmod";
      "mount"; "umount"; "crontab"; "at";
      "nc"; "netcat"; "telnet"; "ssh"; "scp";
      "wget"; "curl"; "ftp"; "tftp" ]%string.

(** The local [shellPatterns] of [validateCommand], in the order of the
    source. *)
Definition shellPatterns : list RegExp :=
  [ search (one_of ";&|`$(){}[]");
    search (lit "$(");
    search (Cat (one "`") (Cat (Star (Sym (λ c, negb (N.eqb c (Js.chr "`"))))) (one "`")));
    search (Cat (one "|") (Cat (Star (Sym is_space)) (plus (Sym is_word))));
    search (Alt (lit "&&") (lit "||"));
    search (Alt (Cat (one ">") (Cat (Star (Sym is_space)) (one "/")))
                (Cat (one "<") (Cat (Star (Sym is_space)) (one "/")))) ].

(** One constructor for each [throw new Error(...)] of [validatePath] and
    [validateCommand]. *)
Inductive ValidationError : Type :=
| InvalidPath
| PathTooLong (len : Z) (maxLength : Z)
| DangerousPathPattern
| TraversalAfterNormalization
| AbsoluteNotAllowed
| ExtensionNotAllowed (ext : jsstring)
| ExtensionNotInAllowedList (ext : jsstring)
| NotInAllowedDirectories
| InBlockedDirectory
| InvalidCommand
| DangerousCommand (baseCommand : jsstring)
| DangerousCommandPattern
| ArgumentTooLong.

(** The message of the thrown [Error]: all a caller can tell a rejection
    by. *)
Definition message (e : ValidationError) : jsstring :=
  match e with
  | InvalidPath => Js.str "Invalid path: must be a non-empty string"
  | PathTooLong len maxLength =>
      Js.str "Path too long: " ++ Js.num len ++
      Js.str " characters (max: " ++ Js.num maxLength ++ Js.str ")"
  | DangerousPathPattern => Js.str "Path contains dangerous patterns"
  | TraversalAfterNormalization => Js.str "Path traversal detected after normalization"
  | AbsoluteNotAllowed => Js.str "Absolute paths not allowed"
  | ExtensionNotAllowed ext => Js.str "File extension not allowed: " ++ ext
  | ExtensionNotInAllowedList ext => Js.str "File extension not in allowed list: " ++ ext
  | NotInAllowedDirectories => Js.str "Path not within allowed directories"
  | InBlockedDirectory => Js.str "Path within blocked directory"
  | InvalidCommand => Js.str "Invalid command: must be a non-empty string"
  | DangerousCommand baseCommand => Js.str "Dangerous command not allowed: " ++ baseCommand
  | DangerousCommandPattern => Js.str "Command contains potentially dangerous patterns"
  | ArgumentTooLong => Js.str "Command argument too long"
  end.

(** The [options] argument of [validatePath] after destructuring. *)
Record PathOptions := {
  allowAbsolute : bool;
  maxLength : Z;
  allowedExtensions : option (list jsstring);
  blockedExtensions : list jsstring;
}.

(** [options = {}]: the defaults of the destructuring. *)
Definition defaultOptions : PathOptions :=
  {| allowAbsolute := false;
     maxLength := 1000;
     allowedExtensions := None;
     blockedExtensions :=
       map Js.str [ ".exe"; ".bat"; ".cmd"; ".com"; ".scr"; ".pif" ]%string |}.

Section Validator.
Context `{Platform} (securityConfig : SecurityConfig).

(** [for (const pattern of DANGEROUS_PATTERNS) if (pattern.test(s)) throw] *)
Definition matches_any (patterns : list RegExp) (s : jsstring) : bool :=
  existsb (λ pattern, test pattern s) patterns.

(** [SecurityValidator.validatePath] *)
Definition validatePath (inputPath : jsstring) (options : PathOptions)
  : result ValidationError jsstring :=
  if Js.falsy inputPath then Throw InvalidPath else
  if Z.of_nat (length inputPath) >? maxLength options
  then Throw (PathTooLong (Z.of_nat (length inputPath)) (maxLength options)) else
  if matches_any DANGEROUS_PATTERNS inputPath then Throw DangerousPathPattern else
  let normalizedPath := path_normalize inputPath in
  if Js.includes normalizedPath (Js.str "..") then Throw TraversalAfterNormalization else
  if path_isAbsolute normalizedPath && negb (allowAbsolute options)
  then Throw AbsoluteNotAllowed else
  let ext := toLowerCase (path_extname normalizedPath) in
  if negb (Js.falsy ext) && Js.arr_includes (blockedExtensions options) ext
  then Throw (ExtensionNotAllowed ext) else
  if negb (Js.falsy ext) &&
     match allowedExtensions options with
     | Some allowed => negb (Js.arr_includes allowed ext)
     | None => false
     end
  then Throw (ExtensionNotInAllowedList ext) else
  let absolutePath := path_resolve normalizedPath in
  let isInAllowedDir :=
    existsb (λ allowedDir, Js.startsWith absolutePath (path_resolve allowedDir))
            (allowedDirectories securityConfig) in
  if negb isInAllowedDir then Throw NotInAllowedDirectories else
  let isInBlockedDir :=
    existsb (λ blockedDir, Js.startsWith absolutePath (path_resolve blockedDir))
            (blockedDirectories securityConfig) in
  if isInBlockedDir then Throw InBlockedDirectory else
  Return absolutePath.

(** [SecurityValidator.validateCommand] *)
Definition validateCommand (command : jsstring) (args : list jsstring)
  : result ValidationError unit :=
  if Js.falsy command then Throw InvalidCommand else
  let baseCommand := toLowerCase (Js.split_space_head command) in
  if Js.arr_includes DANGEROUS_COMMANDS baseCommand
  then Throw (DangerousCommand baseCommand) else
  let fullCommand := command ++ 32%N :: Js.join_space args in
  if matches_any shellPatterns fullCommand then Throw DangerousCommandPattern else
  if existsb (λ arg, Z.of_nat (length arg) >? 1000) args
  then Throw ArgumentTooLong else
  Return tt.

End Validator.

(** A reference platform for concrete runs: [path.posix] as Node documents
    it, with the working directory [cwd], and lower-casing of ASCII
    letters (what [toLowerCase] does on ASCII text). *)
Module Posix.

Definition slash : N := 47.
Definition dot : N := 46.

Fixpoint split_slash_aux (s cur : jsstring) : list jsstring :=
  match s with
  | [] => [rev cur]
  | c :: s' =>
      if N.eqb c slash then rev cur :: split_slash_aux s' []
      else split_slash_aux s' (c :: cur)
  end.

Definition split_slash (s : jsstring) : list jsstring := split_slash_aux s [].

Fixpoint join_slash (segs : list jsstring) : jsstring :=
  match segs with
  | [] => []
  | [a] => a
  | a :: rest => a ++ slash :: join_slash rest
  end.

(** [normalizeString]: the stack of kept segments is held reversed. *)
Fixpoint normalize_segments (allowAboveRoot : bool) (segs kept : list jsstring)
  : list jsstring :=
  match segs with
  | [] => rev kept
  | seg :: rest =>
      if Js.falsy seg || Js.eqb seg [dot] then
        normalize_segments allowAboveRoot rest kept
      else if Js.eqb seg [dot; dot] then
        match kept with
        | top :: below =>
            if Js.eqb top [dot; dot]
            then normalize_segments allowAboveRoot rest
                   (if allowAboveRoot then seg :: kept else kept)
            else normalize_segments allowAboveRoot rest below
        | [] =>
            normalize_segments allowAboveRoot rest
              (if allowAboveRoot then [seg] else [])
        end
      else normalize_segments allowAboveRoot rest (seg :: kept)
  end.

Definition normalizeString (p : jsstring) (allowAboveRoot : bool) : jsstring :=
  join_slash (normalize_segments allowAboveRoot (split_slash p) []).

Definition isAbsolute (p : jsstring) : bool :=
  match p with c :: _ => N.eqb c slash | [] => false end.

Definition normalize (p : jsstring) : jsstring :=
  match p with
  | [] => [dot]
  | _ =>
      let trailing := match last p with Some c => N.eqb c slash | None => false end in
      let body := normalizeString p (negb (isAbsolute p)) in
      match body with
      | [] => if isAbsolute p then [slash]
              else if trailing then [dot; slash] else [dot]
      | _ =>
          let body := if trailing then body ++ [slash] else body in
          if isAbsolute p then slash :: body else body
      end
  end.

Definition resolve (cwd p : jsstring) : jsstring :=
  let full := if isAbsolute p then p else cwd ++ slash :: p in
  slash :: normalizeString full false.

(** The text from the last dot of [s] on, when there is a dot. *)
Fixpoint from_last_dot (s : jsstring) : option jsstring :=
  match s with
  | [] => None
  | c :: s' =>
      match from_last_dot s' with
      | Some e => Some e
      | None => if N.eqb c dot then Some s else None
      end
  end.

Definition extname (p : jsstring) : jsstring :=
  let base := default [] (last (filter (λ seg, seg ≠ []) (split_slash p))) in
  match from_last_dot base with
  | Some e =>
      if Js.eqb e base || Js.eqb base [dot; dot] then [] else e
  | None => []
  end.

Definition lower (c : N) : N :=
  if between 65 90 c then (c + 32)%N else c.

Definition platform (cwd : jsstring) : Platform :=
  {| path_normalize := normalize;
     path_isAbsolute := isAbsolute;
     path_extname := extname;
     path_resolve := resolve cwd;
     toLowerCase := map lower |}.

(** The lists [server/config.ts] falls back to when the environment sets
    none. *)
Definition defaultConfig : SecurityConfig :=
  {| allowedDirectories :=
       map Js.str [ "."; "./src"; "./docs"; "./tests"; "./examples"; "./data" ]%string;
     blockedDirectories :=
       map Js.str [ "/etc"; "/usr"; "/bin"; "/sbin"; "/boot"; "/sys"; "/proc";
                    "/dev"; "/root" ]%string |}.

End Posix.

(** **** The vocabulary of the properties *)

(** The rule of a pattern list an input trips first: the one whose [test]
    makes the scanning loop throw. *)
Fixpoint first_match (patterns : list RegExp) (s : jsstring) : option nat :=
  match patterns with
  | [] => None
  | pattern :: rest =>
      if test pattern s then Some O else S <$> first_match rest s
  end.

(** The pipeline stage a rejection comes from: the position of its
    [throw] in the source. *)
Definition stage (e : ValidationError) : nat :=
  match e with
  | InvalidPath => 0
  | PathTooLong _ _ => 1
  | DangerousPathPattern => 2
  | TraversalAfterNormalization => 3
  | AbsoluteNotAllowed => 4
  | ExtensionNotAllowed _ => 5
  | ExtensionNotInAllowedList _ => 6
  | NotInAllowedDirectories => 7
  | InBlockedDirectory => 8
  | InvalidCommand => 9
  | DangerousCommand _ => 10
  | DangerousCommandPattern => 11
  | ArgumentTooLong => 12
  end%nat.

Section Claims.
Context `{Platform} (securityConfig : SecurityConfig).

(** [validatePath] rejects [input] and the error carries [msg]. *)
Definition rejects_with (input : jsstring) (options : PathOptions) (msg : jsstring) : Prop :=
  ∃ e, validatePath securityConfig input options = Throw e ∧ message e = msg.

(** A reason is specific to traversal when only inputs with a [..]
    sequence, before or after normalisation, are rejected with it. *)
Definition traversal_specific (msg : jsstring) : Prop :=
  ∀ input options,
    rejects_with input options msg →
    Js.Contains (Js.str "..") input ∨ Js.Contains (Js.str "..") (path_normalize input).

(** Inputs that trip different rules of the dangerous-pattern scan are
    told apart by the message of the rejection. *)
Definition distinct_rule_reasons : Prop :=
  ∀ input1 input2 options e1 e2 i j,
    first_match DANGEROUS_PATTERNS input1 = Some i →
    first_match DANGEROUS_PATTERNS input2 = Some j →
    i ≠ j →
    validatePath securityConfig input1 options = Throw e1 →
    validatePath securityConfig input2 options = Throw e2 →
    message e1 ≠ message e2.

End Claims.

(** The platform of the concrete runs. *)
Definition posix : Platform := Posix.platform (Js.str "/home/user/project").

End Security.

(** *** A JavaScript [Map] in insertion order

    [LRUCache] relies on the iteration order of [Map]: [keys().next()] is
    the entry inserted first.  Strings that serve as keys only (cache keys,
    rate-limit identifiers, category names) are Rocq strings. *)

Module JsMap.
Section Ops.
Context {V : Type}.

Definition get (key : string) (m : list (string * V)) : option V :=
  snd <$> find (λ kv, bool_decide (kv.1 = key)) m.

Definition has (key : string) (m : list (string * V)) : bool :=
  bool_decide (is_Some (get key m)).

Definition delete (key : string) (m : list (string * V)) : list (string * V) :=
  filter (λ kv, kv.1 ≠ key) m.

(** [m.set(key, v)]: a present key keeps its place, a new one goes last. *)
Fixpoint set (key : string) (v : V) (m : list (string * V)) : list (string * V) :=
  match m with
  | [] => [(key, v)]
  | (k, w) :: rest =>
      if bool_decide (k = key) then (k, v) :: rest else (k, w) :: set key v rest
  end.

Definition size (m : list (string * V)) : Z := Z.of_nat (length m).

(** [m.keys().next().value]: [undefined] on an empty map. *)
Definition first_key (m : list (string * V)) : option string :=
  match m with
  | [] => None
  | (k, _) :: _ => Some k
  end.

Definition keys (m : list (string * V)) : list string := m.*1.

End Ops.
End JsMap.

(** *** LRUCache *)

Module Cache.

Record Stats := { hits : Z; misses : Z; evictions : Z }.

Section LRU.
Context {T : Type}.
(** [estimateSize] goes through [JSON.stringify]; it is a parameter. *)
Context (estimateSize : T → Z).

Record CacheEntry := {
  value : T;
  timestamp : Z;
  accessCount : Z;
  lastAccessed : Z;
  size : Z;
}.

Record LRUCache := {
  cache : list (string * CacheEntry);
  maxSize : Z;
  ttl : Z;
  enabled : bool;
  stats : Stats;
}.

Definition with_cache (c : LRUCache) (m : list (string * CacheEntry)) : LRUCache :=
  {| cache := m; maxSize := maxSize c; ttl := ttl c; enabled := enabled c;
     stats := stats c |}.

Definition with_stats (c : LRUCache) (s : Stats) : LRUCache :=
  {| cache := cache c; maxSize := maxSize c; ttl := ttl c; enabled := enabled c;
     stats := s |}.

Definition count_hit (c : LRUCache) : LRUCache :=
  with_stats c {| hits := hits (stats c) + 1; misses := misses (stats c);
                  evictions := evictions (stats c) |}.

Definition count_miss (c : LRUCache) : LRUCache :=
  with_stats c {| hits := hits (stats c); misses := misses (stats c) + 1;
                  evictions := evictions (stats c) |}.

Definition count_eviction (c : LRUCache) : LRUCache :=
  with_stats c {| hits := hits (stats c); misses := misses (stats c);
                  evictions := evictions (stats c) + 1 |}.

(** [new LRUCache({maxSize, ttl, enabled})] *)
Definition create (maxSize ttl : Z) (enabled : bool) : LRUCache :=
  {| cache := []; maxSize := maxSize; ttl := ttl; enabled := enabled;
     stats := {| hits := 0; misses := 0; evictions := 0 |} |}.

Definition expired (c : LRUCache) (now : Z) (entry : CacheEntry) : bool :=
  now - timestamp entry >? ttl c.

(** [get(key)] *)
Definition get (key : string) (now : Z) (c : LRUCache) : option T * LRUCache :=
  if negb (enabled c) then (None, c) else
  match JsMap.get key (cache c) with
  | None => (None, count_miss c)
  | Some entry =>
      if expired c now entry then
        (None, count_miss (with_cache c (JsMap.delete key (cache c))))
      else
        let entry' :=
          {| value := value entry; timestamp := timestamp entry;
             accessCount := accessCount entry + 1; lastAccessed := now;
             size := size entry |} in
        (Some (value entry),
         count_hit (with_cache c (JsMap.set key entry' (JsMap.delete key (cache c)))))
  end.

(** [evictLRU()]: [if (firstKey)] is a truthiness test, so neither
    [undefined] nor the empty string passes it. *)
Definition evictLRU (c : LRUCache) : LRUCache :=
  match JsMap.first_key (cache c) with
  | Some firstKey =>
      if bool_decide (firstKey = EmptyString) then c
      else count_eviction (with_cache c (JsMap.delete firstKey (cache c)))
  | None => c
  end.

(** [while (this.cache.size >= this.maxSize) this.evictLRU()], with a bound
    [fuel] on the number of iterations; [None] when the bound is used up
    with the condition still true. *)
Fixpoint evict_while_full (fuel : nat) (c : LRUCache) : option LRUCache :=
  if JsMap.size (cache c) >=? maxSize c then
    match fuel with
    | O => None
    | S fuel' => evict_while_full fuel' (evictLRU c)
    end
  else Some c.

(** The [entry] object [set] builds: [size] is [estimateSize(value)]. *)
Definition new_entry (v : T) (now : Z) : CacheEntry :=
  {| value := v; timestamp := now; accessCount := 1; lastAccessed := now;
     size := estimateSize v |}.

(** [set(key, value)] *)
Definition set (fuel : nat) (key : string) (v : T) (now : Z) (c : LRUCache)
  : option LRUCache :=
  if negb (enabled c) then Some c else
  let c1 :=
    if JsMap.has key (cache c) then with_cache c (JsMap.delete key (cache c)) else c in
  c2 ← evict_while_full fuel c1;
  Some (with_cache c2 (JsMap.set key (new_entry v now) (cache c2))).

(** [has(key)] *)
Definition has (key : string) (now : Z) (c : LRUCache) : bool * LRUCache :=
  if negb (enabled c) then (false, c) else
  match JsMap.get key (cache c) with
  | None => (false, c)
  | Some entry =>
      if expired c now entry
      then (false, with_cache c (JsMap.delete key (cache c)))
      else (true, c)
  end.

(** [delete(key)] *)
Definition delete (key : string) (c : LRUCache) : bool * LRUCache :=
  if negb (enabled c) then (false, c) else
  (JsMap.has key (cache c), with_cache c (JsMap.delete key (cache c))).

(** [clear()] *)
Definition clear (c : LRUCache) : LRUCache :=
  with_stats (with_cache c []) {| hits := 0; misses := 0; evictions := 0 |}.

(** [cleanup()], the periodic sweep. *)
Definition cleanup (now : Z) (c : LRUCache) : LRUCache :=
  with_cache c (filter (λ kv, expired c now kv.2 = false) (cache c)).

(** The calls a client or the sweep timer makes. *)
Inductive op : Type :=
| CallGet (key : string)
| CallSet (key : string) (v : T)
| CallHas (key : string)
| CallDelete (key : string)
| CallClear
| CallCleanup.

(** One call at the time [now]; [None] when it does not return within
    [fuel] iterations of the eviction loop. *)
Definition step (fuel : nat) (call : Z * op) (c : LRUCache) : option LRUCache :=
  match call with
  | (now, CallGet key) => Some (get key now c).2
  | (now, CallSet key v) => set fuel key v now c
  | (now, CallHas key) => Some (has key now c).2
  | (_, CallDelete key) => Some (delete key c).2
  | (_, CallClear) => Some (clear c)
  | (now, CallCleanup) => Some (cleanup now c)
  end.

Fixpoint run (fuel : nat) (calls : list (Z * op)) (c : LRUCache) : option LRUCache :=
  match calls with
  | [] => Some c
  | call :: rest => c' ← step fuel call c; run fuel rest c'
  end.

(** The cache holds no more entries than its capacity. *)
Definition bounded (c : LRUCache) : Prop := JsMap.size (cache c) <= maxSize c.

(** No stored key is the empty string. *)
Definition keys_truthy (c : LRUCache) : Prop :=
  ∀ key, key ∈ JsMap.keys (cache c) → key ≠ EmptyString.

End LRU.

Arguments CacheEntry : clear implicits.
Arguments LRUCache : clear implicits.
Arguments op : clear implicits.

End Cache.

(** *** RateLimiter *)

Module RateLimit.

Record RateLimitEntry := {
  count : Z;
  resetTime : Z;
  firstRequest : Z;
}.

Record RateLimitResult := {
  allowed : bool;
  remaining : Z;
  resultResetTime : Z;
  retryAfter : option Z;
}.

Record RateLimiter := {
  store : gmap string RateLimitEntry;
  windowMs : Z;
  maxRequests : Z;
  enabled : bool;
}.

Definition with_store (rl : RateLimiter) (s : gmap string RateLimitEntry) : RateLimiter :=
  {| store := s; windowMs := windowMs rl; maxRequests := maxRequests rl;
     enabled := enabled rl |}.

(** [new RateLimiter()] over the configured window. *)
Definition create (windowMs maxRequests : Z) (enabled : bool) : RateLimiter :=
  {| store := ∅; windowMs := windowMs; maxRequests := maxRequests;
     enabled := enabled |}.

(** [Math.ceil(ms / 1000)] on a whole number of milliseconds. *)
Definition ceil_seconds (ms : Z) : Z := - ((- ms) / 1000).

Definition fresh_window (rl : RateLimiter) (now : Z) : RateLimitEntry :=
  {| count := 1; resetTime := now + windowMs rl; firstRequest := now |}.

(** [checkLimit(identifier)] *)
Definition checkLimit (identifier : string) (now : Z) (rl : RateLimiter)
  : RateLimitResult * RateLimiter :=
  if negb (enabled rl) then
    ({| allowed := true; remaining := maxRequests rl;
        resultResetTime := now + windowMs rl; retryAfter := None |}, rl)
  else
  match store rl !! identifier with
  | None =>
      ({| allowed := true; remaining := maxRequests rl - 1;
          resultResetTime := now + windowMs rl; retryAfter := None |},
       with_store rl (<[identifier := fresh_window rl now]> (store rl)))
  | Some entry =>
      if now >=? resetTime entry then
        ({| allowed := true; remaining := maxRequests rl - 1;
            resultResetTime := now + windowMs rl; retryAfter := None |},
         with_store rl (<[identifier := fresh_window rl now]> (store rl)))
      else if count entry >=? maxRequests rl then
        ({| allowed := false; remaining := 0;
            resultResetTime := resetTime entry;
            retryAfter := Some (ceil_seconds (resetTime entry - now)) |}, rl)
      else
        let entry' :=
          {| count := count entry + 1; resetTime := resetTime entry;
             firstRequest := firstRequest entry |} in
        ({| allowed := true; remaining := maxRequests rl - count entry';
            resultResetTime := resetTime entry'; retryAfter := None |},
         with_store rl (<[identifier := entry']> (store rl)))
  end.

(** [getStatus(identifier)]: it only reads [this.store], so the limiter it
    leaves behind is the one it was given. *)
Definition getStatus (identifier : string) (now : Z) (rl : RateLimiter)
  : RateLimitResult * RateLimiter :=
  if negb (enabled rl) then
    ({| allowed := true; remaining := maxRequests rl;
        resultResetTime := now + windowMs rl; retryAfter := None |}, rl)
  else
  match store rl !! identifier with
  | Some entry =>
      if now >=? resetTime entry then
        ({| allowed := true; remaining := maxRequests rl;
            resultResetTime := now + windowMs rl; retryAfter := None |}, rl)
      else
        ({| allowed := count entry <? maxRequests rl;
            remaining := Z.max 0 (maxRequests rl - count entry);
            resultResetTime := resetTime entry;
            retryAfter :=
              if count entry >=? maxRequests rl
              then Some (ceil_seconds (resetTime entry - now)) else None |}, rl)
  | None =>
      ({| allowed := true; remaining := maxRequests rl;
          resultResetTime := now + windowMs rl; retryAfter := None |}, rl)
  end.

(** [reset(identifier)] *)
Definition reset (identifier : string) (rl : RateLimiter) : RateLimiter :=
  with_store rl (delete identifier (store rl)).

(** [cleanup()], the periodic sweep. *)
Definition cleanup (now : Z) (rl : RateLimiter) : RateLimiter :=
  with_store rl (filter (λ kv, now < resetTime kv.2) (store rl)).

(** Consecutive [checkLimit] calls for one identifier at the given times;
    the results in call order. *)
Fixpoint checkLimits (identifier : string) (times : list Z) (rl : RateLimiter)
  : list RateLimitResult * RateLimiter :=
  match times with
  | [] => ([], rl)
  | now :: rest =>
      let '(r, rl1) := checkLimit identifier now rl in
      let '(rs, rl2) := checkLimits identifier rest rl1 in
      (r :: rs, rl2)
  end.

(** An operation resets the stored window of an identifier when it
    observes that the window has ended. *)
Definition resets_expired_window
    (operation : string → Z → RateLimiter → RateLimitResult * RateLimiter) : Prop :=
  ∀ identifier now rl entry,
    enabled rl = true →
    store rl !! identifier = Some entry →
    resetTime entry <= now →
    store (operation identifier now rl).2 !! identifier = Some (fresh_window rl now).

(** The limiter of the concrete runs: identifier ["u"] has used up a
    window of three requests that ended at time 1000. *)
Definition spent : RateLimiter :=
  {| store := {[ "u" := {| count := 3; resetTime := 1000; firstRequest := 0 |} ]};
     windowMs := 1000; maxRequests := 3; enabled := true |}.

(** The same with a window of five seconds, still open at time 750. *)
Definition spent_long : RateLimiter :=
  {| store := {[ "u" := {| count := 3; resetTime := 5000; firstRequest := 0 |} ]};
     windowMs := 5000; maxRequests := 3; enabled := true |}.

End RateLimit.

(** *** PerformanceMonitor.withConcurrencyLimit

    The method is an [async] function.  Between two [await]s its code runs
    without interruption, so it is embedded as its three run-to-suspension
    segments over the limiter object:
    - [enter]: from the call to the first suspension;
    - [resume]: the continuation of
      [await new Promise(resolve => queue.push(resolve))], run as a
      microtask once [resolve] has been called;
    - [settle]: the [finally] block, run once [await operation()] settles.
    A call is named by a number; the [resolve] callback it pushes is named
    by the same number.

    The scheduler runs one segment at a time.  Continuations of resolved
    waiters run in the order in which their [resolve] was called (the
    microtask queue is first in, first out), but other jobs may run in
    between: a job that was already queued when [resolve] was called runs
    before the waiter resumes, and it may call [withConcurrencyLimit].
    So [Call] and [Settle] events may come between the [Settle] that wakes
    a waiter and the [Resume] of that waiter. *)

Module Concurrency.

Record ConcurrencyLimiter := {
  maxConcurrent : Z;
  current : Z;
  queue : list nat;
}.

Definition with_current (l : ConcurrencyLimiter) (n : Z) : ConcurrencyLimiter :=
  {| maxConcurrent := maxConcurrent l; current := n; queue := queue l |}.

Definition with_queue (l : ConcurrencyLimiter) (q : list nat) : ConcurrencyLimiter :=
  {| maxConcurrent := maxConcurrent l; current := current l; queue := q |}.

(** The limiter the constructor stores for a category. *)
Definition new_limiter (maxConcurrent : Z) : ConcurrencyLimiter :=
  {| maxConcurrent := maxConcurrent; current := 0; queue := [] |}.

(** How [await operation()] ends.  A rejection of the promise and an
    exception thrown by the call [operation()] itself both leave the [try]
    block through the [finally]; both are [Rejected]. *)
Inductive outcome (T : Type) : Type :=
| Fulfilled (v : T)
| Rejected (reason : string).
Arguments Fulfilled {T} v.
Arguments Rejected {T} reason.

(** Where a call stands after [enter]. *)
Inductive entered : Type :=
| Suspended
| Started.

(** [limiter.current++] *)
Definition acquire (l : ConcurrencyLimiter) : ConcurrencyLimiter :=
  with_current l (current l + 1).

(** First segment: the slot test; a caller that finds the slots taken
    pushes its [resolve] and suspends, any other goes on to
    [limiter.current++] and starts the operation. *)
Definition enter (id : nat) (l : ConcurrencyLimiter) : entered * ConcurrencyLimiter :=
  if current l >=? maxConcurrent l
  then (Suspended, with_queue l (queue l ++ [id]))
  else (Started, acquire l).

(** Second segment, for a caller that was suspended: it goes on to
    [limiter.current++] and starts the operation; the slot test is not
    made again. *)
Definition resume (l : ConcurrencyLimiter) : ConcurrencyLimiter := acquire l.

(** The [finally] block: [limiter.current--], then [queue.shift()] and the
    call of the callback it returned, if any.  The callback called is
    reported; calling it schedules that caller's [resume]. *)
Definition release (l : ConcurrencyLimiter) : option nat * ConcurrencyLimiter :=
  let l1 := with_current l (current l - 1) in
  match queue l1 with
  | [] => (None, l1)
  | next :: rest => (Some next, with_queue l1 rest)
  end.

(** Third segment: [try { return await operation() } finally { ... }]:
    the result or the rejection of the operation is what the call
    produces, after [release]. *)
Definition settle {T : Type} (o : outcome T) (l : ConcurrencyLimiter)
  : result string T * option nat * ConcurrencyLimiter :=
  let '(woken, l') := release l in
  (match o with Fulfilled v => Return v | Rejected reason => Throw reason end,
   woken, l').

(** One category at run time: the limiter object, the callers whose
    [resolve] was called and whose continuation is still in the microtask
    queue (oldest first), the callers whose operation is running, and two
    histories: the callers that had to queue and the queued callers that
    were admitted since, each in order of occurrence. *)
Record Category := {
  limiter : ConcurrencyLimiter;
  resolved : list nat;
  running : list nat;
  queued_history : list nat;
  admitted_history : list nat;
}.

Definition new_category (maxConcurrent : Z) : Category :=
  {| limiter := new_limiter maxConcurrent; resolved := []; running := [];
     queued_history := []; admitted_history := [] |}.

(** What the scheduler can run next on a category. *)
Inductive event : Type :=
| Call (id : nat)
| Resume
| Settle (id : nat) (ok : bool).

(** Remove one occurrence of [id]; [None] when there is none. *)
Fixpoint remove_one (id : nat) (ids : list nat) : option (list nat) :=
  match ids with
  | [] => None
  | x :: rest =>
      if bool_decide (x = id) then Some rest
      else cons x <$> remove_one id rest
  end.

(** One segment run on a category; [None] when the event cannot occur
    ([Resume] with no resolved waiter, [Settle] of an operation that is
    not running). *)
Definition step (ev : event) (w : Category) : option Category :=
  match ev with
  | Call id =>
      match enter id (limiter w) with
      | (Suspended, l) =>
          Some {| limiter := l; resolved := resolved w; running := running w;
                  queued_history := queued_history w ++ [id];
                  admitted_history := admitted_history w |}
      | (Started, l) =>
          Some {| limiter := l; resolved := resolved w; running := running w ++ [id];
                  queued_history := queued_history w;
                  admitted_history := admitted_history w |}
      end
  | Resume =>
      match resolved w with
      | [] => None
      | id :: rest =>
          Some {| limiter := resume (limiter w); resolved := rest;
                  running := running w ++ [id];
                  queued_history := queued_history w;
                  admitted_history := admitted_history w ++ [id] |}
      end
  | Settle id ok =>
      running' ← remove_one id (running w);
      let '(_, woken, l) :=
        settle (if ok then Fulfilled tt else Rejected "failed") (limiter w) in
      Some {| limiter := l;
              resolved := resolved w ++ match woken with Some next => [next] | None => [] end;
              running := running';
              queued_history := queued_history w;
              admitted_history := admitted_history w |}
  end.

Fixpoint run (evs : list event) (w : Category) : option Category :=
  match evs with
  | [] => Some w
  | ev :: rest => w' ← step ev w; run rest w'
  end.

(** A run in which no call comes between the wake-up of a waiter and its
    resumption. *)
Fixpoint run_without_overtaking (evs : list event) (w : Category) : option Category :=
  match evs with
  | [] => Some w
  | ev :: rest =>
      match ev, resolved w with
      | Call _, _ :: _ => None
      | _, _ => w' ← step ev w; run_without_overtaking rest w'
      end
  end.

(** The monitor: [concurrencyLimiters], a [Map] from category names. *)
Inductive CategoryError : Type :=
| UnknownCategory (category : string).

(** [withConcurrencyLimit(category, operation)] up to its first
    suspension: the lookup of the limiter, then [enter]. *)
Definition withConcurrencyLimit_enter (category : string) (id : nat)
    (m : gmap string Category) : result CategoryError (gmap string Category) :=
  match m !! category with
  | None => Throw (UnknownCategory category)
  | Some w =>
      match step (Call id) w with
      | Some w' => Return (<[category := w']> m)
      | None => Return m
      end
  end.

(** A segment of a call of [category] run on the monitor. *)
Definition monitor_step (category : string) (ev : event) (m : gmap string Category)
  : option (gmap string Category) :=
  w ← m !! category;
  w' ← step ev w;
  Some (<[category := w']> m).

Fixpoint monitor_run (evs : list (string * event)) (m : gmap string Category)
  : option (gmap string Category) :=
  match evs with
  | [] => Some m
  | (category, ev) :: rest => m' ← monitor_step category ev m; monitor_run rest m'
  end.

(** [new PerformanceMonitor()] over the configured limits. *)
Definition new_monitor (fileOps searches commands : Z) : gmap string Category :=
  <["commands" := new_category commands]>
    (<["searches" := new_category searches]>
       (<["fileOps" := new_category fileOps]> ∅)).

(** The counter of a category equals the number of its operations in
    flight. *)
Definition counts_running (w : Category) : Prop :=
  current (limiter w) = Z.of_nat (length (running w)).

(** The callers that had to queue are, in order: those admitted since,
    those resolved and about to resume, those still in the queue. *)
Definition fifo (w : Category) : Prop :=
  queued_history w = admitted_history w ++ resolved w ++ queue (limiter w).

(** The events of the concrete runs: callers 11, 12, 13 queue behind
    caller 10 on a single slot; the operation of 10 is rejected, 11 is
    admitted and settles, and 12 is admitted. *)
Definition three_waiters : list event :=
  [Call 10%nat; Call 11%nat; Call 12%nat; Call 13%nat;
   Settle 10%nat false; Resume; Settle 11%nat true; Resume].

(** The category those events lead to. *)
Definition after_three_waiters : Category :=
  {| limiter := {| maxConcurrent := 1; current := 1; queue := [13%nat] |};
     resolved := []; running := [12%nat];
     queued_history := [11%nat; 12%nat; 13%nat];
     admitted_history := [11%nat; 12%nat] |}.

End Concurrency.

(** *** The cache seen by its users

    [createCachedFunction] and the [cached] decorator wrap a function with
    the same three steps: look the key up, on a miss await the function,
    store its result.  The function acts on a world [W]; other code may run
    while it is awaited, so the lookup and the store are separate segments
    with their own clock readings. *)

Module CacheUse.
Import Cache.

Section Use.
Context {T : Type} (estimateSize : T → Z).

(** The keys of the map are pairwise different, as in a [Map]. *)
Definition unique_keys (c : LRUCache T) : Prop := NoDup (JsMap.keys (cache c)).

Definition is_get (call : Z * op T) : bool :=
  match call.2 with CallGet _ => true | _ => false end.

Definition is_clear (call : Z * op T) : bool :=
  match call.2 with CallClear => true | _ => false end.

Context {A W : Type}.
(** [cached !== undefined]: the test needs to know which results are
    [undefined]. *)
Context (is_undefined : T → bool).
Context (fn : A → W → result string T * W) (keyGenerator : A → string).

(** [const cached = cache.get(cacheKey); if (cached !== undefined) return cached] *)
Definition cached_lookup (args : A) (now : Z) (c : LRUCache T) : option T * LRUCache T :=
  match get (keyGenerator args) now c with
  | (Some cached, c1) => if is_undefined cached then (None, c1) else (Some cached, c1)
  | (None, c1) => (None, c1)
  end.

(** [cache.set(cacheKey, result)] *)
Definition cached_store (fuel : nat) (args : A) (r : T) (now : Z) (c : LRUCache T)
  : option (LRUCache T) :=
  set estimateSize fuel (keyGenerator args) r now c.

(** One call of the function [createCachedFunction] returns, nothing else
    touching the cache while [fn] is awaited: the lookup at [t_get], the
    store at [t_set].  A rejection of [fn] is passed on and nothing is
    stored. *)
Definition cachedCall (fuel : nat) (args : A) (t_get t_set : Z) (w : W) (c : LRUCache T)
  : option (result string T * W * LRUCache T) :=
  match cached_lookup args t_get c with
  | (Some cached, c1) => Some (Return cached, w, c1)
  | (None, c1) =>
      match fn args w with
      | (Return r, w') =>
          c2 ← cached_store fuel args r t_set c1; Some (Return r, w', c2)
      | (Throw e, w') => Some (Throw e, w', c1)
      end
  end.

End Use.

(** The calls and the caches of the concrete runs: capacity two, lifetime
    1000 ms; ["a"] is stored at time 0 and ["b"] at time 900. *)
Definition two_sets : list (Z * op Z) :=
  [(0, CallSet "a" 1); (900, CallSet "b" 2)].

Definition two_entries : LRUCache Z :=
  {| cache :=
       [("a", {| value := 1; timestamp := 0; accessCount := 1;
                 lastAccessed := 0; size := 64 |});
        ("b", {| value := 2; timestamp := 900; accessCount := 1;
                 lastAccessed := 900; size := 64 |})];
     maxSize := 2; ttl := 1000; enabled := true;
     stats := {| hits := 0; misses := 0; evictions := 0 |} |}.

(** The cache after a lookup of ["a"] at 950 and of ["zz"] at 960. *)
Definition after_lookups : LRUCache Z :=
  {| cache :=
       [("b", {| value := 2; timestamp := 900; accessCount := 1;
                 lastAccessed := 900; size := 64 |});
        ("a", {| value := 1; timestamp := 0; accessCount := 2;
                 lastAccessed := 950; size := 64 |})];
     maxSize := 2; ttl := 1000; enabled := true;
     stats := {| hits := 1; misses := 1; evictions := 0 |} |}.

(** The cache [two_entries] after a lookup of ["a"] at 950 and the
    insertion of ["c"] at 960. *)
Definition after_read_and_set : LRUCache Z :=
  {| cache :=
       [("a", {| value := 1; timestamp := 0; accessCount := 2;
                 lastAccessed := 950; size := 64 |});
        ("c", {| value := 3; timestamp := 960; accessCount := 1;
                 lastAccessed := 960; size := 64 |})];
     maxSize := 2; ttl := 1000; enabled := true;
     stats := {| hits := 1; misses := 0; evictions := 1 |} |}.

End CacheUse.

(** *** The rate limiter seen by its users *)

Module RateLimitUse.
Import RateLimit.

(** The calls made on a limiter, by clients and by the sweep timer. *)
Inductive call : Type :=
| Check (identifier : string)
| Status (identifier : string)
| Reset (identifier : string)
| Sweep.

Definition step (rl : RateLimiter) (c : Z * call) : RateLimiter :=
  match c with
  | (now, Check identifier) => (checkLimit identifier now rl).2
  | (now, Status identifier) => (getStatus identifier now rl).2
  | (_, Reset identifier) => reset identifier rl
  | (now, Sweep) => cleanup now rl
  end.

Definition run (calls : list (Z * call)) (rl : RateLimiter) : RateLimiter :=
  foldl step rl calls.

(** The error [withRateLimit] throws: an [Error] with the two properties it
    adds. *)
Record RateLimitError := {
  error_message : jsstring;
  error_code : string;
  error_retryAfter : option Z;
}.

(** [`Rate limit exceeded. Try again in ${result.retryAfter} seconds.`] *)
Definition exceeded_message (retryAfter : option Z) : jsstring :=
  Js.str "Rate limit exceeded. Try again in " ++
  match retryAfter with Some s => Js.num s | None => Js.str "undefined" end ++
  Js.str " seconds.".

Section Wrap.
Context {W R : Type}.

(** The function [withRateLimit(operation, identifier)] returns, called at
    time [now]; [operation] acts on a world [W]. *)
Definition withRateLimit (operation : W → R * W) (identifier : string)
    (now : Z) (w : W) (rl : RateLimiter)
  : result RateLimitError R * W * RateLimiter :=
  let '(r, rl') := checkLimit identifier now rl in
  if allowed r then
    let '(x, w') := operation w in (Return x, w', rl')
  else
    (Throw {| error_message := exceeded_message (retryAfter r);
              error_code := "RATE_LIMIT_EXCEEDED";
              error_retryAfter := retryAfter r |}, w, rl').

(** [createRateLimitedFunction(fn, getIdentifier)]: the same with the
    identifier computed from the arguments. *)
Definition createRateLimitedFunction {A : Type} (fn : A → W → R * W)
    (getIdentifier : A → string) (args : A) (now : Z) (w : W) (rl : RateLimiter)
  : result RateLimitError R * W * RateLimiter :=
  withRateLimit (fn args) (getIdentifier args) now w rl.

(** Consecutive calls of the wrapped function at the given times. *)
Fixpoint withRateLimit_calls (operation : W → R * W) (identifier : string)
    (times : list Z) (w : W) (rl : RateLimiter)
  : list (result RateLimitError R) * W * RateLimiter :=
  match times with
  | [] => ([], w, rl)
  | now :: rest =>
      let '(x, w1, rl1) := withRateLimit operation identifier now w rl in
      let '(xs, w2, rl2) := withRateLimit_calls operation identifier rest w1 rl1 in
      (x :: xs, w2, rl2)
  end.

(** What a refusal of the wrapped function looks like. *)
Definition refusal_well_formed (x : result RateLimitError R) : Prop :=
  match x with
  | Return _ => True
  | Throw e =>
      error_code e = "RATE_LIMIT_EXCEEDED" ∧
      ∃ seconds, error_retryAfter e = Some seconds ∧ 1 <= seconds ∧
                 error_message e = exceeded_message (Some seconds)
  end.

(** [operation] applied [n] times to the world. *)
Fixpoint iterate_operation (operation : W → R * W) (n : nat) (w : W) : W :=
  match n with
  | O => w
  | S n' => iterate_operation operation n' (operation w).2
  end.

End Wrap.

(** Every stored window has counted at least one request and no more than
    the limit allows (one, when the limit is below one), and ends
    [windowMs] after its first request. *)
Definition windows_in_range (rl : RateLimiter) : Prop :=
  ∀ identifier entry,
    store rl !! identifier = Some entry →
    1 <= count entry ∧ count entry <= Z.max 1 (maxRequests rl) ∧
    resetTime entry = firstRequest entry + windowMs rl.

End RateLimitUse.

(** *** SecurityValidator.sanitizeInput and SecurityMiddleware.withSecurity

    [sanitizeInput] is embedded on the values built from strings, arrays
    and primitives; its branch for plain objects (which rebuilds an object
    by assignment to computed keys) is not. *)

Module Sanitize.
Import Regex RateLimit.

#[warnings="-register-all"]
Inductive value : Type :=
| VString (s : jsstring)
| VArray (items : list value)
| VPrimitive.

(** [[\x00-\x1f\x7f-\x9f]] *)
Definition is_control (c : N) : bool := between 0 31 c || between 127 159 c.

Fixpoint trim_start (s : jsstring) : jsstring :=
  match s with
  | [] => []
  | c :: s' => if is_space c then trim_start s' else s
  end.

(** [s.trim()] *)
Definition trim (s : jsstring) : jsstring :=
  rev (trim_start (rev (trim_start s))).

(** The string branch: both [replace] calls, [trim], [substring(0, 10000)]. *)
Definition sanitizeString (s : jsstring) : jsstring :=
  take (Z.to_nat 10000)
    (trim (filter (λ c, c ≠ 0%N) (filter (λ c, is_control c = false) s))).

(** [SecurityValidator.sanitizeInput] *)
Fixpoint sanitizeInput (input : value) : value :=
  match input with
  | VString s => VString (sanitizeString s)
  | VArray items => VArray (map sanitizeInput items)
  | VPrimitive => VPrimitive
  end.

(** A property of every string inside a value. *)
Fixpoint all_strings (P : jsstring → Prop) (v : value) : Prop :=
  match v with
  | VString s => P s
  | VArray items => foldr (λ item rest, all_strings P item ∧ rest) True items
  | VPrimitive => True
  end.

(** The shape of a value: strings and primitives as leaves. *)
Fixpoint shape (v : value) : value :=
  match v with
  | VString _ => VString []
  | VArray items => VArray (map shape items)
  | VPrimitive => VPrimitive
  end.

(** What [sanitizeString] guarantees of its result. *)
Definition sanitized (s : jsstring) : Prop :=
  Forall (λ c, is_control c = false) s ∧
  Z.of_nat (length s) <= 10000 ∧
  match s with c :: _ => is_space c = false | [] => True end.

(** The characters of the first shell pattern of [validateCommand]. *)
Definition shell_metacharacters : jsstring := Js.str ";&|`$(){}[]".

Section Middleware.
Context {W R : Type}.

(** The function [SecurityMiddleware.withSecurity(operation, options)]
    returns, called at time [now] with the arguments [args]; [operation]
    acts on a world [W] and may reject.  The [catch] block logs and throws
    the error again.  [rateLimitId] is tested for truthiness, so the empty
    string turns rate limiting off like [undefined]. *)
Definition withSecurity (operation : list value → W → result jsstring R * W)
    (rateLimitId : option string) (sanitizeArgs : bool)
    (args : list value) (now : Z) (w : W) (rl : RateLimiter)
  : result jsstring R * W * RateLimiter :=
  let checked :=
    match rateLimitId with
    | Some identifier =>
        if bool_decide (identifier = EmptyString) then None
        else Some (checkLimit identifier now rl)
    | None => None
    end in
  let refused :=
    match checked with
    | Some (r, _) => if allowed r then None else Some (retryAfter r)
    | None => None
    end in
  let rl' := match checked with Some (_, rl1) => rl1 | None => rl end in
  match refused with
  | Some seconds => (Throw (RateLimitUse.exceeded_message seconds), w, rl')
  | None =>
      (* [sanitizeInput(args)] on the arguments array: its array branch *)
      let processedArgs := if sanitizeArgs then map sanitizeInput args else args in
      let '(x, w') := operation processedArgs w in (x, w', rl')
  end.

End Middleware.
End Sanitize.

(** *** PerformanceMonitor: the metrics buffer and the concurrency report *)

Module Monitor.
Import Concurrency.

(** [maxMetrics] *)
Definition maxMetrics : nat := 1000.

Section Metrics.
Context {Metric : Type}.

(** [addMetric(metric)]: [push], then [slice(-maxMetrics)] when the array
    has grown past the bound. *)
Definition addMetric (metrics : list Metric) (metric : Metric) : list Metric :=
  let pushed := metrics ++ [metric] in
  if (maxMetrics <? length pushed)%nat
  then drop (length pushed - maxMetrics) pushed
  else pushed.

(** [clearMetrics()] *)
Definition clearMetrics (metrics : list Metric) : list Metric := [].

End Metrics.

(** An entry of the record [getConcurrencyStats] returns. *)
Record ConcurrencyStats := {
  stats_maxConcurrent : Z;
  stats_current : Z;
  stats_queued : nat;
}.

(** [getConcurrencyStats()] *)
Definition getConcurrencyStats (m : gmap string Category) : gmap string ConcurrencyStats :=
  (λ w, {| stats_maxConcurrent := maxConcurrent (limiter w);
           stats_current := current (limiter w);
           stats_queued := length (queue (limiter w)) |}) <$> m.

(** Whenever a caller waits in the queue, an operation is in flight or a
    woken caller is about to resume: someone will run [release]. *)
Definition attended (w : Category) : Prop :=
  queue (limiter w) ≠ [] → running w ≠ [] ∨ resolved w ≠ [].

(** The category of the concrete run: caller 1 runs, caller 2 waits. *)
Definition one_running_one_queued : Category :=
  {| limiter := {| maxConcurrent := 1; current := 1; queue := [2%nat] |};
     resolved := []; running := [1%nat];
     queued_history := [2%nat]; admitted_history := [] |}.

End Monitor.

(** ** Part II.  Properties *)

(** *** Strings *)

Module JsFacts.
Import Js.

Lemma startsWith_spec (s p : jsstring) :
  startsWith s p = true ↔ ∃ post, s = p ++ post.
Proof.
  revert s. induction p as [|a p IH]; intros s; simpl.
  - split; [intros _; by exists s | done].
  - destruct s as [|b s]; simpl.
    + split; [done | intros [post Hp]; discriminate].
    + rewrite andb_true_iff, N.eqb_eq, IH. split.
      * intros [-> [post ->]]. by exists post.
      * intros [post Hp]. injection Hp as -> ->. eauto.
Qed.

Lemma includes_spec (s p : jsstring) :
  includes s p = true ↔ Contains p s.
Proof.
  unfold Contains. induction s as [|c s IH]; simpl.
  - rewrite orb_false_r, startsWith_spec. split.
    + intros [post Hp]. exists [], post. done.
    + intros [pre [post Hp]]. destruct pre; [by exists post | discriminate].
  - rewrite orb_true_iff, startsWith_spec, IH. split.
    + intros [[post Hp] | [pre [post Hp]]].
      * exists [], post. done.
      * exists (c :: pre), post. by rewrite Hp.
    + intros [[|c' pre] [post Hp]].
      * left. by exists post.
      * right. injection Hp as -> ->. eauto.
Qed.

End JsFacts.

(** *** Regular expressions: the derivative matcher decides [lang] *)

Module RegexFacts.
Import Regex.

Lemma lang_void_inv (s : jsstring) : lang Void s → False.
Proof. inversion 1. Qed.

Lemma lang_eps_inv (s : jsstring) : lang Eps s → s = [].
Proof. by inversion 1. Qed.

Lemma lang_sym_inv (p : N → bool) (s : jsstring) :
  lang (Sym p) s → ∃ c, s = [c] ∧ p c = true.
Proof. inversion 1; subst; eauto. Qed.

Lemma lang_cat_inv (r1 r2 : regex) (s : jsstring) :
  lang (Cat r1 r2) s → ∃ s1 s2, s = s1 ++ s2 ∧ lang r1 s1 ∧ lang r2 s2.
Proof. inversion 1; subst; eauto. Qed.

Lemma lang_alt_inv (r1 r2 : regex) (s : jsstring) :
  lang (Alt r1 r2) s → lang r1 s ∨ lang r2 s.
Proof. inversion 1; subst; eauto. Qed.

Lemma nullable_lang (r : regex) : nullable r = true ↔ lang r [].
Proof.
  induction r as [| |p|r1 IH1 r2 IH2|r1 IH1 r2 IH2|r IH]; simpl.
  - split; [done | intros H; by apply lang_void_inv in H].
  - split; [intros _; constructor | done].
  - split; [done | intros H; apply lang_sym_inv in H as (c & Hc & _); discriminate].
  - rewrite andb_true_iff, IH1, IH2. split.
    + intros [H1 H2]. apply (lang_cat _ _ [] [] H1 H2).
    + intros H. apply lang_cat_inv in H as (s1 & s2 & Heq & H1 & H2).
      symmetry in Heq. apply app_eq_nil in Heq as [-> ->]. done.
  - rewrite orb_true_iff, IH1, IH2. split.
    + intros [H|H]; [by apply lang_alt_l | by apply lang_alt_r].
    + apply lang_alt_inv.
  - split; [intros _; constructor | done].
Qed.

(** A non-empty word of [Star r] starts with a non-empty word of [r]. *)
Lemma lang_star_cons_inv (r : regex) (c : N) (s : jsstring) :
  lang (Star r) (c :: s) →
  ∃ s1 s2, s = s1 ++ s2 ∧ lang r (c :: s1) ∧ lang (Star r) s2.
Proof.
  intros H. remember (Star r) as r' eqn:Hr. remember (c :: s) as w eqn:Hw.
  revert s Hw.
  induction H as [| | | | | |r0 s1 s2 H1 _ H2 IH2]; try discriminate; intros s Hw.
  injection Hr as ->. destruct s1 as [|c1 s1]; simpl in Hw.
  - by apply IH2.
  - injection Hw as -> <-. eauto.
Qed.

Lemma deriv_lang (c : N) (r : regex) (s : jsstring) :
  lang (deriv c r) s ↔ lang r (c :: s).
Proof.
  revert s.
  induction r as [| |p|r1 IH1 r2 IH2|r1 IH1 r2 IH2|r IH]; intros s; simpl.
  - split; intros H; by apply lang_void_inv in H.
  - split; intros H; [by apply lang_void_inv in H |].
    apply lang_eps_inv in H. discriminate.
  - destruct (p c) eqn:Hp; split; intros H.
    + apply lang_eps_inv in H as ->. by constructor.
    + apply lang_sym_inv in H as (c' & [= <- ->] & _). constructor.
    + by apply lang_void_inv in H.
    + apply lang_sym_inv in H as (c' & [= <- ->] & Hc). congruence.
  - assert (Hcat : ∀ s1 s2, lang (deriv c r1) s1 → lang r2 s2 →
                   lang (Cat r1 r2) (c :: s1 ++ s2)).
    { intros s1 s2 H1 H2. apply IH1 in H1. apply (lang_cat _ _ (c :: s1) s2 H1 H2). }
    assert (Hinv : lang (Cat r1 r2) (c :: s) →
                   (lang r1 [] ∧ lang (deriv c r2) s) ∨ lang (Cat (deriv c r1) r2) s).
    { intros H. apply lang_cat_inv in H as (s1 & s2 & Heq & H1 & H2).
      destruct s1 as [|c1 s1]; simpl in Heq.
      - subst s2. left. split; [done | by apply IH2].
      - injection Heq as <- ->. right. constructor; [by apply IH1 | done]. }
    destruct (nullable r1) eqn:Hn; split; intros H.
    + apply lang_alt_inv in H as [H|H].
      * apply lang_cat_inv in H as (s1 & s2 & -> & H1 & H2). by apply Hcat.
      * apply IH2 in H. apply nullable_lang in Hn.
        apply (lang_cat _ _ [] (c :: s) Hn H).
    + apply Hinv in H as [[_ H]|H]; [by apply lang_alt_r | by apply lang_alt_l].
    + apply lang_cat_inv in H as (s1 & s2 & -> & H1 & H2). by apply Hcat.
    + apply Hinv in H as [[H _]|H]; [| done].
      apply nullable_lang in H. congruence.
  - split; intros H; apply lang_alt_inv in H as [H|H];
      (apply lang_alt_l; by apply IH1) || (apply lang_alt_r; by apply IH2).
  - split; intros H.
    + apply lang_cat_inv in H as (s1 & s2 & -> & H1 & H2).
      apply IH in H1. apply (lang_star_cons _ (c :: s1) s2 H1 H2).
    + apply lang_star_cons_inv in H as (s1 & s2 & -> & H1 & H2).
      constructor; [by apply IH | done].
Qed.

Lemma accepts_lang (r : regex) (s : jsstring) :
  accepts r s = true ↔ lang r s.
Proof.
  revert r. induction s as [|c s IH]; intros r; simpl.
  - apply nullable_lang.
  - rewrite IH. apply deriv_lang.
Qed.

Lemma lang_anything (s : jsstring) : lang anything s.
Proof.
  induction s as [|c s IH]; [constructor |].
  apply (lang_star_cons _ [c] s); [by constructor | done].
Qed.

(** [test] on an unanchored pattern: some substring is a word of it. *)
Lemma test_search (r : regex) (s : jsstring) :
  test (search r) s = true ↔
  ∃ pre mid post, s = pre ++ mid ++ post ∧ lang r mid.
Proof.
  unfold test, search. simpl. rewrite accepts_lang. split.
  - intros H. apply lang_cat_inv in H as (pre & rest & -> & _ & H).
    apply lang_cat_inv in H as (mid & post & -> & Hmid & _).
    by exists pre, mid, post.
  - intros (pre & mid & post & -> & Hmid).
    constructor; [apply lang_anything |].
    constructor; [done | apply lang_anything].
Qed.

Lemma lang_one (a : ascii) : lang (one a) [Js.chr a].
Proof. constructor. apply N.eqb_refl. Qed.

Lemma lang_lit (s : string) : lang (lit s) (Js.str s).
Proof.
  induction s as [|a s IH]; [constructor |].
  destruct s as [|b s].
  - apply lang_one.
  - change (lang (Cat (one a) (lit (String b s))) ([Js.chr a] ++ Js.str (String b s))).
    constructor; [apply lang_one | done].
Qed.

End RegexFacts.

(** *** SecurityValidator *)

Module SecurityFacts.
Import Regex Security.

Lemma matches_any_head (pattern : RegExp) (rest : list RegExp) (s : jsstring) :
  test pattern s = true → matches_any (pattern :: rest) s = true.
Proof. intros Ht. unfold matches_any. simpl. by rewrite Ht. Qed.

Lemma matches_any_elem (patterns : list RegExp) (pattern : RegExp) (s : jsstring) :
  pattern ∈ patterns → test pattern s = true → matches_any patterns s = true.
Proof.
  intros Hin Ht. unfold matches_any. apply existsb_exists.
  exists pattern. split; [by apply list_elem_of_In | done].
Qed.

Lemma traversal_pattern_matches (s : jsstring) :
  Js.Contains (Js.str "..") s → matches_any DANGEROUS_PATTERNS s = true.
Proof.
  intros (pre & post & ->). unfold DANGEROUS_PATTERNS.
  apply matches_any_head, RegexFacts.test_search.
  exists pre, (Js.str ".."), post. split; [done | apply RegexFacts.lang_lit].
Qed.

Section Validator.
Context `{Platform} (securityConfig : SecurityConfig).

(** The traversal message is the message of one error only. *)
Lemma traversal_message_inv (e : ValidationError) :
  message e = Js.str "Path traversal detected after normalization" →
  e = TraversalAfterNormalization.
Proof.
  intros Hmsg. destruct e; try done;
    apply (f_equal (take 7)) in Hmsg; lazy in Hmsg; discriminate.
Qed.

(** C1, as amended.  An input with a [..] sequence, in the raw text or in
    its normalised form, is never given a path back: [validatePath]
    throws, at the non-empty test, the length test, the dangerous-pattern
    scan or the re-check after normalisation.  The calls
    [validatePath("../../etc/passwd")] and [validatePath("a/b/../c")] are
    both rejected by the dangerous-pattern scan, with the message that
    scan gives for every one of its patterns.  The traversal message,
    [Path traversal detected after normalization], goes only to an input
    that has no [..] itself and whose normal form has one, and every such
    input that passes the three tests before the normalisation gets it. *)
Theorem validatePath_rejects_traversal :
  (∀ input options,
     Js.Contains (Js.str "..") input ∨
     Js.Contains (Js.str "..") (path_normalize input) →
     ∃ e, validatePath securityConfig input options = Throw e ∧
          (stage e ≤ 3)%nat) ∧
  validatePath securityConfig (Js.str "../../etc/passwd") defaultOptions
    = Throw DangerousPathPattern ∧
  validatePath securityConfig (Js.str "a/b/../c") defaultOptions
    = Throw DangerousPathPattern ∧
  message DangerousPathPattern = Js.str "Path contains dangerous patterns" ∧
  (∀ input options e,
     validatePath securityConfig input options = Throw e →
     message e = Js.str "Path traversal detected after normalization" →
     ¬ Js.Contains (Js.str "..") input ∧
     Js.Contains (Js.str "..") (path_normalize input)) ∧
  (∀ input options,
     Js.falsy input = false →
     Z.of_nat (length input) <= maxLength options →
     matches_any DANGEROUS_PATTERNS input = false →
     Js.Contains (Js.str "..") (path_normalize input) →
     ∃ e, validatePath securityConfig input options = Throw e ∧
          message e = Js.str "Path traversal detected after normalization").
Proof.
  split; [| split; [by vm_compute | split; [by vm_compute | split; [by vm_compute |]]]].
  - intros input options Hdots. unfold validatePath.
    destruct (Js.falsy input) eqn:Hempty.
    { exists InvalidPath. split; [done | simpl; lia]. }
    destruct (Z.of_nat (length input) >? maxLength options).
    { eexists. split; [done | simpl; lia]. }
    destruct (matches_any DANGEROUS_PATTERNS input) eqn:Hscan.
    { exists DangerousPathPattern. split; [done | simpl; lia]. }
    destruct Hdots as [Hraw | Hnorm].
    + apply traversal_pattern_matches in Hraw. congruence.
    + apply JsFacts.includes_spec in Hnorm. rewrite Hnorm.
      exists TraversalAfterNormalization. split; [done | simpl; lia].
  - split.
    + intros input options e Hthrow Hmsg.
      apply traversal_message_inv in Hmsg as ->.
      unfold validatePath in Hthrow.
      destruct (Js.falsy input); [done |].
      destruct (Z.of_nat (length input) >? maxLength options); [done |].
      destruct (matches_any DANGEROUS_PATTERNS input) eqn:Hscan; [done |].
      destruct (Js.includes (path_normalize input) (Js.str "..")) eqn:Hnorm.
      * split; [| by apply JsFacts.includes_spec].
        intros Hraw. apply traversal_pattern_matches in Hraw. congruence.
      * destruct (path_isAbsolute _ && _); [done |].
        destruct (negb _ && Js.arr_includes _ _); [done |].
        destruct (negb _ && _); [done |].
        destruct (negb _); [done |].
        by destruct (existsb _ (blockedDirectories securityConfig)).
    + intros input options Hne Hlen Hscan Hnorm. unfold validatePath.
      rewrite Hne.
      destruct (Z.gtb_spec (Z.of_nat (length input)) (maxLength options)); [lia |].
      rewrite Hscan. apply JsFacts.includes_spec in Hnorm. rewrite Hnorm.
      by exists TraversalAfterNormalization.
Qed.

(** C9, as amended.  Rejections are named by pipeline stage: errors thrown
    at different stages of [validatePath] and [validateCommand] carry
    different messages, while every rule of the dangerous-pattern scan
    leads to the one message of that scan and every shell pattern to the
    one message of the shell scan. *)
Theorem reasons_distinct_by_stage :
  (∀ e1 e2, stage e1 ≠ stage e2 → message e1 ≠ message e2) ∧
  (∀ pattern input options,
     pattern ∈ DANGEROUS_PATTERNS →
     Js.falsy input = false →
     Z.of_nat (length input) <= maxLength options →
     test pattern input = true →
     validatePath securityConfig input options = Throw DangerousPathPattern) ∧
  (∀ pattern command args,
     pattern ∈ shellPatterns →
     Js.falsy command = false →
     Js.arr_includes DANGEROUS_COMMANDS (toLowerCase (Js.split_space_head command)) = false →
     test pattern (command ++ 32%N :: Js.join_space args) = true →
     validateCommand command args = Throw DangerousCommandPattern).
Proof.
  split; [| split].
  - intros e1 e2 Hstage Hmsg.
    destruct e1, e2; simpl in Hstage; try done;
      first [ apply (f_equal (take 15)) in Hmsg; lazy in Hmsg; discriminate
            | apply (f_equal (take 20)) in Hmsg; lazy in Hmsg; discriminate ].
  - intros pattern input options Hin Hne Hlen Htest. unfold validatePath.
    rewrite Hne. destruct (Z.gtb_spec (Z.of_nat (length input)) (maxLength options)); [lia |].
    by rewrite (matches_any_elem _ _ _ Hin Htest).
  - intros pattern command args Hin Hne Hbase Htest. unfold validateCommand.
    rewrite Hne, Hbase. by rewrite (matches_any_elem _ _ _ Hin Htest).
Qed.

End Validator.

(** On the reference platform the normal form of [a/b/../c] is [a/c]: the
    call is stopped by the scan of the raw input, not by the re-check. *)
Lemma normalize_drops_parent_segment :
  Posix.normalize (Js.str "a/b/../c") = Js.str "a/c" ∧
  Js.includes (Posix.normalize (Js.str "a/b/../c")) (Js.str "..") = false.
Proof. by vm_compute. Qed.

(** C1, a run: a path with a [..] segment in the middle. *)
Lemma validatePath_rejects_traversal_run :
  ∃ e, @validatePath posix Posix.defaultConfig (Js.str "docs/../secret") defaultOptions
         = Throw e ∧ (stage e ≤ 3)%nat.
Proof.
  apply (proj1 (@validatePath_rejects_traversal posix Posix.defaultConfig)).
  left. exists (Js.str "docs/"), (Js.str "/secret"). reflexivity.
Defined.

(** C1, the claim as written fails: the reason [validatePath] gives for
    ["../../etc/passwd"] is the reason it gives for ["/proc/cpuinfo"],
    which has no [..] before or after normalisation; no reason it gives
    for the former is specific to traversal. *)
Lemma traversal_reason_is_shared :
  ¬ ∃ msg,
      @rejects_with posix Posix.defaultConfig (Js.str "../../etc/passwd") defaultOptions msg ∧
      @traversal_specific posix Posix.defaultConfig msg.
Proof.
  intros (msg & (e & He & Hmsg) & Hspecific).
  assert (e = DangerousPathPattern) as -> by (vm_compute in He; congruence).
  destruct (Hspecific (Js.str "/proc/cpuinfo") defaultOptions) as [Hc | Hc].
  - exists DangerousPathPattern. split; [by vm_compute | done].
  - apply JsFacts.includes_spec in Hc. vm_compute in Hc. discriminate.
  - apply JsFacts.includes_spec in Hc. vm_compute in Hc. discriminate.
Qed.

(** C9, a run of the stage rule: a control character trips the last
    pattern of the scan. *)
Lemma reasons_distinct_by_stage_run :
  @validatePath posix Posix.defaultConfig (Js.str "notes" ++ [7%N]) defaultOptions
    = Throw DangerousPathPattern.
Proof.
  apply (proj1 (proj2 (@reasons_distinct_by_stage posix Posix.defaultConfig))
           (search (Sym (λ c, between 0 31 c || between 127 159 c)))).
  - unfold DANGEROUS_PATTERNS. set_solver.
  - reflexivity.
  - vm_compute. discriminate.
  - reflexivity.
Defined.

(** C9, the claim as written fails: a traversal sequence (first rule of
    the scan) and a process-filesystem prefix (fourth rule) are rejected
    with one and the same message. *)
Lemma rules_share_one_reason :
  ¬ @distinct_rule_reasons posix Posix.defaultConfig.
Proof.
  intros Hdistinct.
  apply (Hdistinct (Js.str "../notes.txt") (Js.str "/proc/cpuinfo") defaultOptions
           DangerousPathPattern DangerousPathPattern 0%nat 3%nat);
    by vm_compute.
Qed.

End SecurityFacts.

(** *** The insertion-ordered map *)

Module JsMapFacts.
Section Facts.
Context {V : Type}.
Implicit Types (m : list (string * V)) (key : string) (v : V).

Lemma delete_length m key :
  (length (JsMap.delete key m) ≤ length m)%nat.
Proof. apply length_filter. Qed.

Lemma get_elem m key v :
  JsMap.get key m = Some v → (key, v) ∈ m.
Proof.
  unfold JsMap.get. induction m as [|[k w] m IH]; simpl; [done |].
  case_bool_decide as Hk; simpl in *.
  - intros [= ->]. subst k. left.
  - intros Hget. right. by apply IH.
Qed.

Lemma get_delete_eq m key : JsMap.get key (JsMap.delete key m) = None.
Proof.
  unfold JsMap.get, JsMap.delete. induction m as [|[k w] m IH]; [done |].
  rewrite filter_cons. simpl. case_decide as Hk; [| done].
  simpl. by rewrite bool_decide_false.
Qed.

Lemma get_delete_ne m key key' :
  key' ≠ key → JsMap.get key' (JsMap.delete key m) = JsMap.get key' m.
Proof.
  intros Hne. unfold JsMap.get, JsMap.delete.
  induction m as [|[k w] m IH]; [done |].
  rewrite filter_cons. simpl. case_decide as Hk; simpl.
  - case_bool_decide; [done | apply IH].
  - subst k. by rewrite bool_decide_false.
Qed.

(** Deleting a present key makes the map shorter. *)
Lemma delete_length_present m key :
  JsMap.has key m = true → (length (JsMap.delete key m) < length m)%nat.
Proof.
  unfold JsMap.has. rewrite bool_decide_eq_true.
  unfold JsMap.get, JsMap.delete.
  induction m as [|[k w] m IH]; simpl.
  - by intros [? ?].
  - rewrite filter_cons. simpl. destruct (decide (k = key)) as [->|Hk].
    + intros _. rewrite decide_False by (intros Hne; by apply Hne).
      pose proof (length_filter (λ kv : string * V, kv.1 ≠ key) m). lia.
    + rewrite bool_decide_false by done. rewrite decide_True by done.
      intros Hhas. apply IH in Hhas. simpl. lia.
Qed.

Lemma set_length m key v :
  (length (JsMap.set key v m) ≤ S (length m))%nat.
Proof.
  induction m as [|[k w] m IH]; simpl; [done |].
  case_bool_decide; simpl; lia.
Qed.

Lemma get_set_eq m key v : JsMap.get key (JsMap.set key v m) = Some v.
Proof.
  unfold JsMap.get. induction m as [|[k w] m IH]; simpl.
  - by rewrite bool_decide_true.
  - case_bool_decide as Hk; simpl.
    + by rewrite bool_decide_true.
    + by rewrite bool_decide_false.
Qed.

Lemma get_set_ne m key key' v :
  key' ≠ key → JsMap.get key' (JsMap.set key v m) = JsMap.get key' m.
Proof.
  intros Hne. unfold JsMap.get. induction m as [|[k w] m IH]; simpl.
  - by rewrite bool_decide_false.
  - case_bool_decide as Hk; simpl.
    + subst k. by rewrite !bool_decide_false.
    + case_bool_decide; [done | apply IH].
Qed.

(** A key that is not in the map is appended. *)
Lemma set_absent m key v :
  JsMap.get key m = None → JsMap.set key v m = m ++ [(key, v)].
Proof.
  unfold JsMap.get. induction m as [|[k w] m IH]; simpl; [done |].
  case_bool_decide as Hk; simpl; [done |].
  intros Hget. by rewrite IH.
Qed.

Lemma get_cons m key k v :
  JsMap.get key ((k, v) :: m) = if bool_decide (k = key) then Some v else JsMap.get key m.
Proof. unfold JsMap.get. simpl. by case_bool_decide. Qed.

Lemma delete_cons_eq m key v :
  JsMap.delete key ((key, v) :: m) = JsMap.delete key m.
Proof.
  unfold JsMap.delete. rewrite filter_cons. simpl.
  by rewrite decide_False by (intros Hne; by apply Hne).
Qed.

(** Deleting an absent key changes nothing. *)
Lemma delete_absent m key : JsMap.get key m = None → JsMap.delete key m = m.
Proof.
  unfold JsMap.delete. induction m as [|[k w] m IH]; [done |].
  rewrite get_cons, filter_cons. simpl. case_bool_decide as Hk; [done |].
  intros Hget. rewrite decide_True by done. by rewrite IH.
Qed.

Lemma has_get m key : JsMap.has key m = true ↔ is_Some (JsMap.get key m).
Proof. unfold JsMap.has. apply bool_decide_eq_true. Qed.

End Facts.
End JsMapFacts.

(** *** LRUCache *)

Module CacheFacts.
Import Cache.

Section Facts.
Context {T : Type} (estimateSize : T → Z).
Implicit Types (c : LRUCache T) (key : string) (v : T) (now : Z) (fuel : nat).

Lemma evict_while_full_unfold fuel c :
  evict_while_full fuel c =
  if JsMap.size (cache c) >=? maxSize c then
    match fuel with
    | O => None
    | S fuel' => evict_while_full fuel' (evictLRU c)
    end
  else Some c.
Proof. by destruct fuel. Qed.

Lemma evictLRU_config c :
  maxSize (evictLRU c) = maxSize c ∧ enabled (evictLRU c) = enabled c ∧
  ttl (evictLRU c) = ttl c.
Proof.
  unfold evictLRU. destruct (JsMap.first_key (cache c)); [| done].
  by case_bool_decide.
Qed.

(** When the eviction loop ends, there is room for one more entry. *)
Lemma evict_while_full_exit fuel c c' :
  evict_while_full fuel c = Some c' →
  JsMap.size (cache c') < maxSize c' ∧ maxSize c' = maxSize c.
Proof.
  revert c. induction fuel as [|fuel IH]; intros c; simpl;
    destruct (Z.geb_spec (JsMap.size (cache c)) (maxSize c)); try done.
  - intros [= <-]. lia.
  - intros Hloop. apply IH in Hloop as [Hroom Hmax].
    split; [done |]. rewrite Hmax. apply evictLRU_config.
  - intros [= <-]. lia.
Qed.

Lemma set_bounded fuel key v now c c' :
  set estimateSize fuel key v now c = Some c' →
  bounded c → bounded c' ∧ maxSize c' = maxSize c.
Proof.
  unfold set, bounded. destruct (enabled c); simpl; [| by intros [= <-]].
  set (c1 := if JsMap.has key (cache c) then _ else c).
  assert (maxSize c1 = maxSize c) as Hmax1 by (subst c1; by destruct (JsMap.has _ _)).
  destruct (evict_while_full fuel c1) as [c2|] eqn:Hloop; simpl; [| done].
  apply evict_while_full_exit in Hloop as [Hroom Hmax2].
  intros [= <-] _. simpl. split; [| congruence].
  unfold JsMap.size in *.
  pose proof (JsMapFacts.set_length (cache c2) key (new_entry estimateSize v now)).
  lia.
Qed.

Lemma get_bounded key now c :
  bounded c → bounded (get key now c).2 ∧ maxSize (get key now c).2 = maxSize c.
Proof.
  unfold get, bounded. destruct (enabled c); simpl; [| done].
  destruct (JsMap.get key (cache c)) as [entry|] eqn:Hget; simpl; [| done].
  assert (JsMap.has key (cache c) = true) as Hhas
    by (apply JsMapFacts.has_get; by rewrite Hget).
  apply JsMapFacts.delete_length_present in Hhas.
  destruct (expired c now entry); simpl; unfold JsMap.size in *.
  - split; [lia | done].
  - split; [| done].
    pose proof (JsMapFacts.set_length (JsMap.delete key (cache c)) key
      {| value := value entry; timestamp := timestamp entry;
         accessCount := accessCount entry + 1; lastAccessed := now;
         size := size entry |}).
    lia.
Qed.

Lemma has_bounded key now c :
  bounded c → bounded (has key now c).2 ∧ maxSize (has key now c).2 = maxSize c.
Proof.
  unfold has, bounded. destruct (enabled c); simpl; [| done].
  destruct (JsMap.get key (cache c)) as [entry|]; simpl; [| done].
  destruct (expired c now entry); simpl; [| done].
  pose proof (JsMapFacts.delete_length (cache c) key).
  unfold JsMap.size. split; [lia | done].
Qed.

Lemma delete_bounded key c :
  bounded c → bounded (delete key c).2 ∧ maxSize (delete key c).2 = maxSize c.
Proof.
  unfold delete, bounded. destruct (enabled c); simpl; [| done].
  pose proof (JsMapFacts.delete_length (cache c) key).
  unfold JsMap.size. split; [lia | done].
Qed.

Lemma step_bounded fuel call c c' :
  0 <= maxSize c →
  step estimateSize fuel call c = Some c' →
  bounded c → bounded c' ∧ maxSize c' = maxSize c.
Proof.
  intros Hcap. destruct call as [now [key|key v|key| key | |]]; simpl.
  - intros [= <-]. apply get_bounded.
  - apply set_bounded.
  - intros [= <-]. apply has_bounded.
  - intros [= <-]. apply delete_bounded.
  - intros [= <-] _. unfold bounded, JsMap.size. simpl. done.
  - intros [= <-]. unfold bounded, cleanup, JsMap.size. simpl.
    pose proof (length_filter (λ kv, expired c now kv.2 = false) (cache c)).
    split; [lia | done].
Qed.

Lemma run_bounded fuel calls c c' :
  0 <= maxSize c →
  run estimateSize fuel calls c = Some c' →
  bounded c → bounded c' ∧ maxSize c' = maxSize c.
Proof.
  revert c. induction calls as [|call calls IH]; intros c Hcap; simpl.
  - by intros [= <-].
  - destruct (step estimateSize fuel call c) as [c1|] eqn:Hstep; simpl; [| done].
    intros Hrun Hb. destruct (step_bounded _ _ _ _ Hcap Hstep Hb) as [Hb1 Hmax1].
    apply IH in Hrun as [Hb' Hmax']; [| lia | done].
    split; [done | congruence].
Qed.

(** The eviction loop ends when no stored key is the empty string and the
    capacity is positive: one iteration for each stored entry is enough. *)
Lemma evict_while_full_returns fuel c :
  (length (cache c) ≤ fuel)%nat → keys_truthy c → 1 <= maxSize c →
  ∃ c', evict_while_full fuel c = Some c'.
Proof.
  revert c. induction fuel as [|fuel IH]; intros c Hlen Hkeys Hcap; simpl;
    destruct (Z.geb_spec (JsMap.size (cache c)) (maxSize c)) as [Hfull|]; eauto.
  - unfold JsMap.size in Hfull. lia.
  - unfold evictLRU. destruct (cache c) as [|[k entry] rest] eqn:Hcache; simpl.
    { unfold JsMap.size in Hfull. simpl in Hfull. lia. }
    rewrite bool_decide_false.
    2:{ apply Hkeys. rewrite Hcache. unfold JsMap.keys. simpl. left. }
    apply IH; simpl; [| | done].
    + pose proof (JsMapFacts.delete_length rest k). unfold JsMap.delete in *.
      rewrite filter_cons. simpl. rewrite decide_False by (intros Hne; by apply Hne).
      simpl in Hlen. lia.
    + intros key Hin. apply Hkeys. rewrite Hcache. unfold JsMap.keys in *.
      apply list_elem_of_fmap in Hin as (kv & -> & Hin).
      apply list_elem_of_filter in Hin as [_ Hin].
      apply list_elem_of_fmap. by exists kv.
Qed.

(** [set] returns when no stored key is the empty string and the capacity
    is positive. *)
Lemma set_returns fuel key v now c :
  (length (cache c) ≤ fuel)%nat → keys_truthy c → 1 <= maxSize c →
  ∃ c', set estimateSize fuel key v now c = Some c'.
Proof.
  intros Hlen Hkeys Hcap. unfold set. destruct (enabled c); simpl; [| eauto].
  set (c1 := if JsMap.has key (cache c) then _ else c).
  destruct (evict_while_full_returns fuel c1) as [c2 ->]; simpl; eauto.
  - subst c1. destruct (JsMap.has key (cache c)); simpl; [| done].
    pose proof (JsMapFacts.delete_length (cache c) key). lia.
  - subst c1. destruct (JsMap.has key (cache c)); simpl; [| done].
    intros k Hin. apply Hkeys. unfold JsMap.keys, JsMap.delete in *.
    apply list_elem_of_fmap in Hin as (kv & -> & Hin).
    apply list_elem_of_filter in Hin as [_ Hin].
    apply list_elem_of_fmap. by exists kv.
  - subst c1. by destruct (JsMap.has key (cache c)).
Qed.

(** C2, as amended.  Starting from a new cache whose capacity [maxSize]
    is a whole number not below zero, after every sequence of [get],
    [set], [has], [delete], [clear] and sweep calls that has returned, the
    number of stored entries is at most [maxSize]; as each prefix of a
    sequence is a sequence, the bound holds after each call. *)
Theorem cache_size_bounded fuel calls (capacity ttl : Z) (enabled : bool) c' :
  0 <= capacity →
  run estimateSize fuel calls (create capacity ttl enabled) = Some c' →
  JsMap.size (cache c') <= capacity.
Proof.
  intros Hcap Hrun.
  destruct (run_bounded fuel calls (create capacity ttl enabled) c' Hcap Hrun)
    as [Hb Hmax].
  - unfold bounded, JsMap.size. simpl. lia.
  - unfold bounded in Hb. simpl in Hmax. lia.
Qed.

(** C10.  [set] on a key that is present in a full cache returns without
    running the eviction loop: every other key keeps its entry, the
    eviction counter stays as it was, and (the cache being enabled) the
    key holds the new entry. *)
Theorem set_present_keeps_others fuel key v now c :
  JsMap.has key (cache c) = true →
  JsMap.size (cache c) = maxSize c →
  ∃ c', set estimateSize fuel key v now c = Some c' ∧
        (∀ key', key' ≠ key →
           JsMap.get key' (cache c') = JsMap.get key' (cache c)) ∧
        evictions (stats c') = evictions (stats c) ∧
        (enabled c = true →
           JsMap.get key (cache c') = Some (new_entry estimateSize v now)).
Proof.
  intros Hhas Hfull. unfold set. destruct (enabled c); simpl.
  2:{ exists c. by repeat split. }
  rewrite Hhas, evict_while_full_unfold. simpl.
  pose proof (JsMapFacts.delete_length_present _ _ Hhas) as Hlt.
  destruct (Z.geb_spec (JsMap.size (JsMap.delete key (cache c))) (maxSize c)) as [Hge|_].
  { unfold JsMap.size in *. lia. }
  simpl. eexists. split; [done |]. simpl. repeat split.
  - intros key' Hne.
    by rewrite JsMapFacts.get_set_ne, JsMapFacts.get_delete_ne.
  - intros _. apply JsMapFacts.get_set_eq.
Qed.

End Facts.
End CacheFacts.

(** *** LRUCache: the eviction order and the empty key *)

Module LruOrder.
Import Cache.

Section Order.
Context {T : Type} (estimateSize : T → Z).
Implicit Types (c : LRUCache T) (key : string) (v : T) (now : Z) (fuel : nat).

Lemma evict_while_full_room fuel c :
  JsMap.size (cache c) < maxSize c → evict_while_full fuel c = Some c.
Proof.
  intros Hroom. rewrite CacheFacts.evict_while_full_unfold.
  destruct (Z.geb_spec (JsMap.size (cache c)) (maxSize c)); [lia | done].
Qed.

(** With the empty string as oldest key of a full cache, [evictLRU]
    deletes nothing and the loop of [set] never ends. *)
Lemma evict_while_full_stuck fuel c :
  JsMap.first_key (cache c) = Some EmptyString →
  maxSize c <= JsMap.size (cache c) →
  evict_while_full fuel c = None.
Proof.
  intros Hfirst Hfull. induction fuel as [|fuel IH]; simpl;
    destruct (Z.geb_spec (JsMap.size (cache c)) (maxSize c)); try lia; [done |].
  unfold evictLRU. rewrite Hfirst. by rewrite bool_decide_true.
Qed.

Lemma set_stuck fuel key v now c :
  enabled c = true →
  JsMap.has key (cache c) = false →
  JsMap.first_key (cache c) = Some EmptyString →
  maxSize c <= JsMap.size (cache c) →
  set estimateSize fuel key v now c = None.
Proof.
  intros Hon Hnew Hfirst Hfull. unfold set. rewrite Hon, Hnew. simpl.
  by rewrite evict_while_full_stuck.
Qed.

(** A new key is appended when there is room. *)
Lemma set_fresh_room fuel key v now c :
  enabled c = true →
  JsMap.get key (cache c) = None →
  JsMap.size (cache c) < maxSize c →
  set estimateSize fuel key v now c =
  Some (with_cache c (cache c ++ [(key, new_entry estimateSize v now)])).
Proof.
  intros Hon Hget Hroom. unfold set, JsMap.has. rewrite Hon, Hget. simpl.
  rewrite evict_while_full_room by done. simpl.
  by rewrite JsMapFacts.set_absent.
Qed.

(** A new key set on an exactly full cache evicts the oldest entry, and
    only that one, when its key is not the empty string. *)
Lemma set_fresh_evicts_oldest fuel key v now c oldest entry rest :
  enabled c = true →
  cache c = (oldest, entry) :: rest →
  oldest ≠ EmptyString →
  JsMap.get oldest rest = None →
  JsMap.get key (cache c) = None →
  JsMap.size (cache c) = maxSize c →
  (1 ≤ fuel)%nat →
  set estimateSize fuel key v now c =
  Some (count_eviction (with_cache c (rest ++ [(key, new_entry estimateSize v now)]))).
Proof.
  intros Hon Hcache Hold Hnodup Hget Hfull Hfuel.
  destruct fuel as [|fuel]; [lia |].
  unfold set, JsMap.has. rewrite Hon, Hget. simpl.
  destruct (Z.geb_spec (JsMap.size (cache c)) (maxSize c)); [| lia].
  assert (evictLRU c = count_eviction (with_cache c rest)) as ->.
  { unfold evictLRU. rewrite Hcache. simpl. rewrite bool_decide_false by done.
    by rewrite JsMapFacts.delete_cons_eq, JsMapFacts.delete_absent. }
  rewrite evict_while_full_room.
  2:{ simpl. rewrite Hcache in Hfull. unfold JsMap.size in *. simpl in Hfull. lia. }
  simpl. rewrite JsMapFacts.set_absent; [done |].
  rewrite Hcache, JsMapFacts.get_cons in Hget. by case_bool_decide.
Qed.

Lemma keys_snoc (m : list (string * CacheEntry T)) key (entry : CacheEntry T) :
  last (JsMap.keys (m ++ [(key, entry)])) = Some key.
Proof. unfold JsMap.keys. rewrite fmap_app. simpl. apply last_snoc. Qed.

(** A hit makes the key the most recently used one. *)
Lemma get_hit_most_recent key now c v :
  (get key now c).1 = Some v →
  last (JsMap.keys (cache (get key now c).2)) = Some key.
Proof.
  unfold get. destruct (enabled c); simpl; [| done].
  destruct (JsMap.get key (cache c)) as [entry|]; simpl; [| done].
  destruct (expired c now entry); simpl; [done |]. intros _.
  rewrite JsMapFacts.set_absent by apply JsMapFacts.get_delete_eq.
  apply keys_snoc.
Qed.

Lemma evict_while_full_absent fuel key c c' :
  evict_while_full fuel c = Some c' →
  JsMap.get key (cache c) = None → JsMap.get key (cache c') = None.
Proof.
  revert c. induction fuel as [|fuel IH]; intros c; simpl;
    destruct (JsMap.size (cache c) >=? maxSize c); try done;
    try (by intros [= <-]).
  intros Hloop Hnone. apply (IH _ Hloop). unfold evictLRU.
  destruct (JsMap.first_key (cache c)) as [firstKey|]; [| done].
  case_bool_decide; [done |]. simpl.
  destruct (decide (key = firstKey)) as [->|Hne].
  - apply JsMapFacts.get_delete_eq.
  - by rewrite JsMapFacts.get_delete_ne.
Qed.

(** A [set] that returns makes the key the most recently used one. *)
Lemma set_most_recent fuel key v now c c' :
  enabled c = true →
  set estimateSize fuel key v now c = Some c' →
  last (JsMap.keys (cache c')) = Some key.
Proof.
  intros Hon. unfold set. rewrite Hon. simpl.
  set (c1 := if JsMap.has key (cache c) then _ else c).
  assert (JsMap.get key (cache c1) = None) as Hnone.
  { subst c1. destruct (JsMap.has key (cache c)) eqn:Hhas; simpl.
    - apply JsMapFacts.get_delete_eq.
    - destruct (JsMap.get key (cache c)) eqn:Hget; [| done].
      assert (JsMap.has key (cache c) = true)
        by (apply JsMapFacts.has_get; by rewrite Hget).
      congruence. }
  destruct (evict_while_full fuel c1) as [c2|] eqn:Hloop; simpl; [| done].
  intros [= <-]. simpl.
  rewrite JsMapFacts.set_absent by (by eapply evict_while_full_absent).
  apply keys_snoc.
Qed.

(** With distinct keys of which the first is not the empty string, the
    third [set] on a cache of capacity two evicts the first key and keeps
    the other two. *)
Lemma lru_order_truthy_key fuel (a b k : string) (va vb vk : T) (ttl t0 t1 t2 t : Z) :
  a ≠ b → a ≠ k → b ≠ k → a ≠ EmptyString → (1 ≤ fuel)%nat →
  t - t1 <= ttl → t - t2 <= ttl →
  ∃ c, run estimateSize fuel
         [(t0, CallSet a va); (t1, CallSet b vb); (t2, CallSet k vk)]
         (create 2 ttl true) = Some c ∧
       (get a t c).1 = None ∧ (get b t c).1 = Some vb ∧ (get k t c).1 = Some vk.
Proof.
  intros Hab Hak Hbk Ha Hfuel Ht1 Ht2.
  unfold run, step.
  rewrite set_fresh_room by done. simpl.
  rewrite set_fresh_room; simpl; [| done | | done].
  2:{ rewrite JsMapFacts.get_cons. by rewrite bool_decide_false. }
  rewrite (set_fresh_evicts_oldest _ _ _ _ _ a (new_entry estimateSize va t0) [(b, new_entry estimateSize vb t1)]);
    simpl; try done.
  2:{ rewrite JsMapFacts.get_cons. by rewrite bool_decide_false by done. }
  2:{ rewrite !JsMapFacts.get_cons. rewrite bool_decide_false by done.
      by rewrite bool_decide_false by done. }
  eexists. split; [done |].
  unfold get, expired. simpl. rewrite !JsMapFacts.get_cons.
  rewrite (bool_decide_false (b = a)); [| done].
  rewrite (bool_decide_false (k = a)); [| done].
  rewrite (bool_decide_true (b = b)); [| done].
  rewrite (bool_decide_false (b = k)); [| done].
  rewrite (bool_decide_true (k = k)); [| done]. simpl.
  destruct (Z.gtb_spec (t - t1) ttl); [lia |].
  destruct (Z.gtb_spec (t - t2) ttl); [lia |]. done.
Qed.

End Order.

(** C7.  The least-recently-used key being the empty string, the third
    [set] of the sequence does not evict it: whatever the number of
    iterations allowed, the call has not returned. *)
Theorem lru_eviction_stuck_on_empty_key (fuel : nat) :
  run (λ _ : Z, 64) fuel
    [(0, CallSet EmptyString 1); (1, CallSet "b" 2); (2, CallSet "c" 3)]
    (create 2 1000 true) = None.
Proof.
  unfold run, step.
  rewrite set_fresh_room by done. simpl.
  rewrite set_fresh_room by done. simpl.
  by rewrite set_stuck.
Qed.

(** C2, a run: six calls on a cache of capacity two. *)
Lemma cache_size_bounded_run :
  ∃ c', run (λ _ : Z, 64) 2
          [(0, CallSet "a" 1); (1, CallSet "b" 2); (2, CallGet "a");
           (3, CallSet "c" 3); (4, CallDelete "b"); (5, CallSet "d" 4)]
          (create 2 1000 true) = Some c' ∧
        JsMap.size (cache c') <= 2.
Proof.
  eexists. split; [reflexivity |].
  apply (CacheFacts.cache_size_bounded (λ _ : Z, 64) 2
           [(0, CallSet "a" 1); (1, CallSet "b" 2); (2, CallGet "a");
            (3, CallSet "c" 3); (4, CallDelete "b"); (5, CallSet "d" 4)]
           2 1000 true); [lia | reflexivity].
Defined.

(** C2, the claim as written fails: the constructor keeps the [maxSize]
    it is given, and on a cache made with [maxSize = -1] a [delete]
    returns with zero entries stored, more than [maxSize]. *)
Lemma negative_capacity_exceeds_bound :
  ¬ ∀ (capacity ttl : Z) (enabled : bool) (fuel : nat) (calls : list (Z * op Z)) c',
      run (λ _ : Z, 64) fuel calls (create capacity ttl enabled) = Some c' →
      JsMap.size (cache c') <= capacity.
Proof.
  intros Hbound.
  specialize (Hbound (-1) 1000 true 0%nat [(0, CallDelete "a")] _ eq_refl).
  vm_compute in Hbound. by apply Hbound.
Qed.

(** C10, a run: re-setting the older key of a full cache of two. *)
Lemma set_present_keeps_others_run :
  ∃ c', set (λ _ : Z, 64) 0 "a" 7 5
          {| cache :=
               [("a", {| value := 1; timestamp := 0; accessCount := 1;
                         lastAccessed := 0; size := 64 |});
                ("b", {| value := 2; timestamp := 1; accessCount := 1;
                         lastAccessed := 1; size := 64 |})];
             maxSize := 2; ttl := 1000; enabled := true;
             stats := {| hits := 0; misses := 0; evictions := 0 |} |} = Some c' ∧
        JsMap.get "b" (cache c') =
          Some {| value := 2; timestamp := 1; accessCount := 1;
                  lastAccessed := 1; size := 64 |} ∧
        JsMap.keys (cache c') = ["b"; "a"].
Proof.
  pose proof (CacheFacts.set_present_keeps_others (λ _ : Z, 64) 0 "a" 7 5
    {| cache :=
         [("a", {| value := 1; timestamp := 0; accessCount := 1;
                   lastAccessed := 0; size := 64 |});
          ("b", {| value := 2; timestamp := 1; accessCount := 1;
                   lastAccessed := 1; size := 64 |})];
       maxSize := 2; ttl := 1000; enabled := true;
       stats := {| hits := 0; misses := 0; evictions := 0 |} |}
    eq_refl eq_refl) as (c' & Hset & Hothers & _).
  exists c'. split; [exact Hset |]. split.
  - rewrite Hothers by done. reflexivity.
  - vm_compute in Hset. injection Hset as <-. reflexivity.
Defined.

End LruOrder.

(** *** RateLimiter *)

Module RateLimitFacts.
Import RateLimit.

Lemma ceil_seconds_pos (ms : Z) : 0 < ms → 0 < ceil_seconds ms.
Proof.
  intros Hms. unfold ceil_seconds.
  assert (- ms / 1000 < 0) by (apply Z.div_lt_upper_bound; lia). lia.
Qed.

(** Inside the window, below the limit: the count goes up by one. *)
Lemma checkLimit_counts identifier now rl entry :
  enabled rl = true →
  store rl !! identifier = Some entry →
  now < resetTime entry →
  count entry < maxRequests rl →
  checkLimit identifier now rl =
  ({| allowed := true; remaining := maxRequests rl - (count entry + 1);
      resultResetTime := resetTime entry; retryAfter := None |},
   with_store rl
     (<[identifier := {| count := count entry + 1; resetTime := resetTime entry;
                         firstRequest := firstRequest entry |}]> (store rl))).
Proof.
  intros Hon Hentry Hin Hbelow. unfold checkLimit. rewrite Hon, Hentry. simpl.
  destruct (Z.geb_spec now (resetTime entry)); [lia |].
  destruct (Z.geb_spec (count entry) (maxRequests rl)); [lia | done].
Qed.

Lemma checkLimit_rejects identifier now rl entry :
  enabled rl = true →
  store rl !! identifier = Some entry →
  now < resetTime entry →
  maxRequests rl <= count entry →
  checkLimit identifier now rl =
  ({| allowed := false; remaining := 0; resultResetTime := resetTime entry;
      retryAfter := Some (ceil_seconds (resetTime entry - now)) |}, rl).
Proof.
  intros Hon Hentry Hin Hfull. unfold checkLimit. rewrite Hon, Hentry. simpl.
  destruct (Z.geb_spec now (resetTime entry)); [lia |].
  destruct (Z.geb_spec (count entry) (maxRequests rl)); [done | lia].
Qed.

Lemma checkLimit_first identifier now rl :
  enabled rl = true →
  store rl !! identifier = None →
  checkLimit identifier now rl =
  ({| allowed := true; remaining := maxRequests rl - 1;
      resultResetTime := now + windowMs rl; retryAfter := None |},
   with_store rl (<[identifier := fresh_window rl now]> (store rl))).
Proof. intros Hon Hnone. unfold checkLimit. by rewrite Hon, Hnone. Qed.

(** [ceil_seconds ms] is the least whole number of seconds that covers
    [ms] milliseconds. *)
Lemma ceil_seconds_is_ceiling (ms : Z) :
  1000 * (ceil_seconds ms - 1) < ms <= 1000 * ceil_seconds ms.
Proof.
  unfold ceil_seconds.
  pose proof (Z.div_mod (- ms) 1000) as Hdiv.
  pose proof (Z.mod_pos_bound (- ms) 1000) as Hmod. lia.
Qed.

(** C4.  In a window that has not ended and whose stored count has
    reached [maxRequests], [checkLimit] answers [allowed = false] with
    [retryAfter = ceil((resetTime - now) / 1000)], the least whole number
    of seconds that covers the rest of the window and so a positive one,
    and hands back the limiter as it was.  So with [maxRequests = 3], four
    calls for one identifier within one window are answered allowed,
    allowed, allowed, refused with that retry delay, the stored count
    staying at three. *)
Theorem checkLimit_refuses_at_limit :
  (∀ identifier now rl entry,
     enabled rl = true →
     store rl !! identifier = Some entry →
     now < resetTime entry →
     maxRequests rl <= count entry →
     ∃ seconds,
       checkLimit identifier now rl =
         ({| allowed := false; remaining := 0; resultResetTime := resetTime entry;
             retryAfter := Some seconds |}, rl) ∧
       1000 * (seconds - 1) < resetTime entry - now <= 1000 * seconds ∧
       0 < seconds) ∧
  (∀ identifier window t1 t2 t3 t4,
     t1 <= t2 → t2 <= t3 → t3 <= t4 → t4 < t1 + window →
     ∃ r1 r2 r3 r4 rl seconds,
       checkLimits identifier [t1; t2; t3; t4] (create window 3 true)
         = ([r1; r2; r3; r4], rl) ∧
       allowed <$> [r1; r2; r3; r4] = [true; true; true; false] ∧
       retryAfter r4 = Some seconds ∧
       1000 * (seconds - 1) < t1 + window - t4 <= 1000 * seconds ∧
       0 < seconds ∧
       count <$> store rl !! identifier = Some 3).
Proof.
  split.
  - intros identifier now rl entry Hon Hentry Hin Hfull.
    exists (ceil_seconds (resetTime entry - now)). split; [| split].
    + by apply checkLimit_rejects.
    + apply ceil_seconds_is_ceiling.
    + apply ceil_seconds_pos. lia.
  - intros identifier window t1 t2 t3 t4 H12 H23 H34 Hin.
    unfold checkLimits.
    rewrite checkLimit_first by done. unfold fresh_window. simpl.
    erewrite checkLimit_counts;
      [| done | apply lookup_insert_eq | simpl; lia | simpl; lia]. simpl.
    erewrite checkLimit_counts;
      [| done | apply lookup_insert_eq | simpl; lia | simpl; lia]. simpl.
    erewrite checkLimit_rejects;
      [| done | apply lookup_insert_eq | simpl; lia | simpl; lia]. simpl.
    do 6 eexists. split; [done |]. split; [done |]. split; [done |].
    split; [apply ceil_seconds_is_ceiling |].
    split; [apply ceil_seconds_pos; lia |].
    simpl. by rewrite lookup_insert_eq.
Qed.

(** C8, as amended.  When [checkLimit] finds that the stored window of an
    identifier has ended, it allows the request and stores the window
    [{count: 1, firstRequest: now, resetTime: now + windowMs}], leaving
    the other identifiers alone.  [getStatus] in the same situation
    reports a fresh window and leaves the store as it is. *)
Theorem window_reset_on_write_only :
  ∀ identifier now rl entry,
    enabled rl = true →
    store rl !! identifier = Some entry →
    resetTime entry <= now →
    (allowed (checkLimit identifier now rl).1 = true ∧
     store (checkLimit identifier now rl).2 !! identifier =
       Some {| count := 1; resetTime := now + windowMs rl; firstRequest := now |} ∧
     (∀ other, other ≠ identifier →
        store (checkLimit identifier now rl).2 !! other = store rl !! other)) ∧
    (getStatus identifier now rl).1 =
      {| allowed := true; remaining := maxRequests rl;
         resultResetTime := now + windowMs rl; retryAfter := None |} ∧
    (getStatus identifier now rl).2 = rl.
Proof.
  intros identifier now rl entry Hon Hentry Hended.
  unfold checkLimit, getStatus. rewrite Hon, Hentry. simpl.
  destruct (Z.geb_spec now (resetTime entry)); [| lia]. simpl.
  repeat split.
  - apply lookup_insert_eq.
  - intros other Hother. by apply lookup_insert_ne.
Qed.

(** C4, a run: a request made 4250 ms before the end of a used-up window
    is told to come back in the five seconds that cover them. *)
Lemma checkLimit_refuses_at_limit_run :
  ∃ seconds,
    checkLimit "u" 750 spent_long =
      ({| allowed := false; remaining := 0; resultResetTime := 5000;
          retryAfter := Some seconds |}, spent_long) ∧
    1000 * (seconds - 1) < 5000 - 750 <= 1000 * seconds ∧
    0 < seconds.
Proof.
  apply (proj1 checkLimit_refuses_at_limit "u" 750 spent_long
           {| count := 3; resetTime := 5000; firstRequest := 0 |});
    [reflexivity | reflexivity | reflexivity | discriminate].
Defined.

(** C8, a run: the same identifier seen again at time 2000. *)
Lemma window_reset_on_write_only_run :
  (allowed (checkLimit "u" 2000 spent).1 = true ∧
   store (checkLimit "u" 2000 spent).2 !! "u" =
     Some {| count := 1; resetTime := 2000 + 1000; firstRequest := 2000 |} ∧
   (∀ other, other ≠ "u" →
      store (checkLimit "u" 2000 spent).2 !! other = store spent !! other)) ∧
  (getStatus "u" 2000 spent).1 =
    {| allowed := true; remaining := 3; resultResetTime := 2000 + 1000;
       retryAfter := None |} ∧
  (getStatus "u" 2000 spent).2 = spent.
Proof.
  apply (window_reset_on_write_only "u" 2000 spent
           {| count := 3; resetTime := 1000; firstRequest := 0 |});
    [reflexivity | reflexivity | discriminate].
Defined.

(** C8, the claim as written fails on the read path: after [getStatus]
    has seen the ended window, the store still holds the old one. *)
Lemma getStatus_does_not_reset :
  ¬ resets_expired_window getStatus.
Proof.
  intros Hresets.
  specialize (Hresets "u" 2000 spent
                {| count := 3; resetTime := 1000; firstRequest := 0 |}
                eq_refl eq_refl).
  assert (1000 <= 2000) as Hended by lia.
  apply Hresets in Hended. vm_compute in Hended. discriminate.
Qed.

End RateLimitFacts.

(** *** withConcurrencyLimit *)

Module ConcurrencyFacts.
Import Concurrency.

Lemma remove_one_length (id : nat) (ids ids' : list nat) :
  remove_one id ids = Some ids' → length ids = S (length ids').
Proof.
  revert ids'. induction ids as [|x ids IH]; intros ids'; simpl; [done |].
  case_bool_decide; [by intros [= ->] |].
  destruct (remove_one id ids) as [rest|]; simpl; [| done].
  intros [= <-]. simpl. f_equal. by apply IH.
Qed.

(** [release] wakes the caller that has waited longest. *)
Lemma release_head (l : ConcurrencyLimiter) :
  release l =
  (head (queue l),
   {| maxConcurrent := maxConcurrent l; current := current l - 1;
      queue := tail (queue l) |}).
Proof. unfold release, with_queue, with_current. simpl. by destruct (queue l). Qed.

Lemma step_counts_running (ev : event) (w w' : Category) :
  step ev w = Some w' → counts_running w → counts_running w'.
Proof.
  unfold counts_running. destruct ev as [id| |id ok]; simpl.
  - unfold enter. destruct (current (limiter w) >=? maxConcurrent (limiter w));
      intros [= <-]; simpl; [done |].
    rewrite length_app. simpl. lia.
  - destruct (resolved w) as [|id rest]; [done |].
    intros [= <-]. simpl. rewrite length_app. simpl. lia.
  - destruct (remove_one id (running w)) as [running'|] eqn:Hrem; simpl; [| done].
    apply remove_one_length in Hrem. unfold settle. rewrite release_head.
    intros [= <-]. simpl. lia.
Qed.

Lemma step_fifo (ev : event) (w w' : Category) :
  step ev w = Some w' → fifo w → fifo w'.
Proof.
  unfold fifo. destruct ev as [id| |id ok]; simpl.
  - unfold enter. destruct (current (limiter w) >=? maxConcurrent (limiter w));
      intros [= <-]; simpl; [| done].
    intros ->. by rewrite <- !app_assoc.
  - destruct (resolved w) as [|id rest]; [done |].
    intros [= <-]. simpl. intros ->. by rewrite <- app_assoc.
  - destruct (remove_one id (running w)) as [running'|]; simpl; [| done].
    unfold settle. rewrite release_head. intros [= <-]. simpl. intros ->.
    destruct (queue (limiter w)); simpl; [by rewrite !app_nil_r |].
    by rewrite <- app_assoc.
Qed.

Lemma run_invariant (P : Category → Prop) :
  (∀ ev w w', step ev w = Some w' → P w → P w') →
  ∀ evs w w', run evs w = Some w' → P w → P w'.
Proof.
  intros Hstep evs. induction evs as [|ev evs IH]; intros w w'; simpl.
  - by intros [= <-].
  - destruct (step ev w) as [w1|] eqn:Hev; simpl; [| done]. eauto.
Qed.

(** On the monitor every category keeps what each of its steps keeps. *)
Lemma monitor_run_invariant (P : Category → Prop) :
  (∀ ev w w', step ev w = Some w' → P w → P w') →
  ∀ evs (m m' : gmap string Category),
    monitor_run evs m = Some m' →
    map_Forall (λ _, P) m → map_Forall (λ _, P) m'.
Proof.
  intros Hstep evs. induction evs as [|[category ev] evs IH]; intros m m'; simpl.
  - by intros [= <-].
  - unfold monitor_step.
    destruct (m !! category) as [w|] eqn:Hw; simpl; [| done].
    destruct (step ev w) as [w1|] eqn:Hev; simpl; [| done].
    intros Hrun Hall. apply (IH _ _ Hrun).
    apply map_Forall_insert_2; [| done]. eauto.
Qed.

(** C5.  Queued callers are admitted in the order in which they queued:
    at any time the callers admitted from the queue, followed by those
    already woken and those still queued, are the callers that queued, in
    arrival order; a settling operation, fulfilled or rejected, wakes the
    head of the queue.  So three callers queued behind one running
    operation on a single slot are admitted first, second, third. *)
Theorem waiters_admitted_in_arrival_order :
  (∀ limit evs w,
     run evs (new_category limit) = Some w →
     queued_history w = admitted_history w ++ resolved w ++ queue (limiter w)) ∧
  (∀ (T : Type) (o : outcome T) l, (settle o l).1.2 = head (queue l)) ∧
  (∀ first w1 w2 w3 ok0 ok1 ok2,
     ∃ w, run [Call first; Call w1; Call w2; Call w3;
               Settle first ok0; Resume; Settle w1 ok1; Resume;
               Settle w2 ok2; Resume] (new_category 1) = Some w ∧
          queued_history w = [w1; w2; w3] ∧
          admitted_history w = [w1; w2; w3]).
Proof.
  split; [| split].
  - intros limit evs w Hrun.
    by apply (run_invariant fifo step_fifo evs (new_category limit) w Hrun).
  - intros T o l. unfold settle. rewrite release_head. by destruct o.
  - intros first w1 w2 w3 ok0 ok1 ok2. simpl.
    repeat (rewrite bool_decide_true by done; simpl). eauto.
Qed.

(** C6.  A call that took a slot gives it back when its operation
    settles, whether fulfilled or rejected: the counter is back at its
    value before the slot was taken, the head of the queue (if any) is
    woken, and the outcome of the operation is the outcome of the call.
    Over any run the counter equals the number of operations in flight,
    so no settled call keeps a slot. *)
Theorem slot_released_on_every_path :
  (∀ (T : Type) (o : outcome T) l,
     ∃ l', settle o (acquire l) =
             (match o with Fulfilled v => Return v | Rejected reason => Throw reason end,
              head (queue l), l') ∧
           current l' = current l ∧
           queue l' = tail (queue l) ∧
           maxConcurrent l' = maxConcurrent l) ∧
  (∀ limit evs w,
     run evs (new_category limit) = Some w →
     current (limiter w) = Z.of_nat (length (running w))).
Proof.
  split.
  - intros T o l. unfold settle. rewrite release_head. simpl.
    eexists. split; [done |]. simpl. repeat split. lia.
  - intros limit evs w Hrun.
    by apply (run_invariant counts_running step_counts_running evs (new_category limit) w Hrun).
Qed.

(** The same, for every category of the monitor. *)
Lemma monitor_counts_running (fileOps searches commands : Z)
    (evs : list (string * event)) (m : gmap string Category) :
  monitor_run evs (new_monitor fileOps searches commands) = Some m →
  ∀ category w, m !! category = Some w →
    current (limiter w) = Z.of_nat (length (running w)) ∧
    queued_history w = admitted_history w ++ resolved w ++ queue (limiter w).
Proof.
  intros Hrun category w Hw.
  pose (P := λ w, counts_running w ∧ fifo w).
  assert (map_Forall (λ _, P) m) as Hall.
  { apply (monitor_run_invariant P) with (evs := evs)
      (m := new_monitor fileOps searches commands); [| done |].
    - intros ev w0 w1 Hstep [Hc Hf].
      split; [by eapply step_counts_running | by eapply step_fifo].
    - unfold new_monitor. by repeat apply map_Forall_insert_2. }
  by apply (Hall category w Hw).
Qed.

(** An unknown category is refused at once. *)
Lemma unknown_category_throws (category : string) (id : nat) (m : gmap string Category) :
  m !! category = None →
  withConcurrencyLimit_enter category id m = Throw (UnknownCategory category).
Proof. intros Hnone. unfold withConcurrencyLimit_enter. by rewrite Hnone. Qed.

(** Two calls back to back on a single slot: the second is queued, and it
    is resumed only after the first has settled and released the slot. *)
Lemma second_call_waits (a b : nat) (ok : bool) :
  (∃ w, run [Call a; Call b] (new_category 1) = Some w ∧
        running w = [a] ∧ queue (limiter w) = [b] ∧ resolved w = [] ∧
        step Resume w = None) ∧
  (∃ w, run [Call a; Call b; Settle a ok; Resume] (new_category 1) = Some w ∧
        running w = [b] ∧ current (limiter w) = 1).
Proof.
  split; simpl; repeat (rewrite bool_decide_true by done; simpl); eauto 10.
Qed.

(** Where the limit does hold: as long as no call overtakes a woken
    waiter, the operations in flight and the waiters about to resume
    together never exceed the limit. *)
Lemma limit_holds_without_overtaking (limit : Z) (evs : list event) (w : Category) :
  0 <= limit →
  run_without_overtaking evs (new_category limit) = Some w →
  current (limiter w) <= limit ∧
  current (limiter w) + Z.of_nat (length (resolved w)) <= limit.
Proof.
  intros Hlimit Hrun.
  cut (current (limiter w) + Z.of_nat (length (resolved w)) <= limit); [lia |].
  revert Hrun.
  assert (Hgen : ∀ w0,
    maxConcurrent (limiter w0) = limit →
    current (limiter w0) + Z.of_nat (length (resolved w0)) <= limit →
    run_without_overtaking evs w0 = Some w →
    current (limiter w) + Z.of_nat (length (resolved w)) <= limit).
  { induction evs as [|ev evs IH]; intros w0 Hmax Hinv; simpl.
    - by intros [= <-].
    - assert (Hstep : ∀ w1, step ev w0 = Some w1 →
                (match ev with Call _ => resolved w0 = [] | _ => True end) →
                maxConcurrent (limiter w1) = limit ∧
                current (limiter w1) + Z.of_nat (length (resolved w1)) <= limit).
      { intros w1. destruct ev as [id| |id ok]; simpl.
        - unfold enter.
          destruct (Z.geb_spec (current (limiter w0)) (maxConcurrent (limiter w0)));
            intros [= <-] Hquiet; simpl; rewrite ?Hquiet in *; simpl in *; lia.
        - destruct (resolved w0) as [|id rest]; [done |].
          intros [= <-] _. simpl in *. lia.
        - destruct (remove_one id (running w0)); simpl; [| done].
          unfold settle. rewrite release_head. intros [= <-] _. simpl.
          rewrite length_app. destruct (queue (limiter w0)); simpl; lia. }
      destruct ev as [id| |id ok].
      + destruct (resolved w0) eqn:Hres; [| done].
        destruct (step (Call id) w0) as [w1|] eqn:Hev; simpl; [| done].
        destruct (Hstep w1 eq_refl eq_refl). by apply IH.
      + destruct (step Resume w0) as [w1|] eqn:Hev; [| by destruct (resolved w0)].
        destruct (Hstep w1 eq_refl I).
        destruct (resolved w0); simpl; by apply IH.
      + destruct (step (Settle id ok) w0) as [w1|] eqn:Hev; [| by destruct (resolved w0)].
        destruct (Hstep w1 eq_refl I).
        destruct (resolved w0); simpl; by apply IH. }
  apply Hgen; simpl; [done | lia].
Qed.

(** C3.  A single-slot category with one operation running and one caller
    queued: the operation settles, a third call arrives before the woken
    caller resumes, and both the third call and the woken caller start.
    Two operations are in flight and the counter is above the limit. *)
Theorem concurrency_limit_exceeded :
  ∃ w, run [Call 1%nat; Call 2%nat; Settle 1%nat true; Call 3%nat; Resume]
         (new_category 1) = Some w ∧
       running w = [3%nat; 2%nat] ∧
       current (limiter w) = 2 ∧
       maxConcurrent (limiter w) = 1.
Proof. eexists. by vm_compute. Qed.

(** C5, a run. *)
Lemma waiters_admitted_in_arrival_order_run :
  run three_waiters (new_category 1) = Some after_three_waiters ∧
  queued_history after_three_waiters =
    admitted_history after_three_waiters ++ resolved after_three_waiters ++
    queue (limiter after_three_waiters).
Proof.
  split; [vm_compute; reflexivity |].
  apply (proj1 waiters_admitted_in_arrival_order 1 three_waiters after_three_waiters).
  vm_compute. reflexivity.
Defined.

(** C6, a run. *)
Lemma slot_released_on_every_path_run :
  run three_waiters (new_category 1) = Some after_three_waiters ∧
  current (limiter after_three_waiters) =
    Z.of_nat (length (running after_three_waiters)).
Proof.
  split; [vm_compute; reflexivity |].
  apply (proj2 slot_released_on_every_path 1 three_waiters after_three_waiters).
  vm_compute. reflexivity.
Defined.

End ConcurrencyFacts.

(** *** LRUCache: round trips, expiry, sweep, statistics *)

Module CacheUseFacts.
Import Cache CacheUse.

Section Facts.
Context {T : Type} (estimateSize : T → Z).
Implicit Types (c : LRUCache T) (key : string) (v : T) (now : Z) (fuel : nat).
Implicit Types (m : list (string * CacheEntry T)).

Lemma get_absent m key : JsMap.get key m = None ↔ key ∉ JsMap.keys m.
Proof.
  unfold JsMap.keys. induction m as [|[k w] m IH]; simpl.
  - split; [intros _; apply not_elem_of_nil | done].
  - rewrite JsMapFacts.get_cons, not_elem_of_cons. case_bool_decide as Hk.
    + split; [done | intros [Hne _]; congruence].
    + rewrite IH. split; [intros Hm; split; [congruence | done] | by intros [_ Hm]].
Qed.

Lemma keys_filter_subset (P : string * CacheEntry T → Prop) `{!∀ kv, Decision (P kv)} m key :
  key ∈ JsMap.keys (filter P m) → key ∈ JsMap.keys m.
Proof.
  unfold JsMap.keys. intros Hin.
  apply list_elem_of_fmap in Hin as (kv & -> & Hin).
  apply list_elem_of_filter in Hin as [_ Hin].
  apply list_elem_of_fmap. by exists kv.
Qed.

Lemma unique_keys_filter (P : string * CacheEntry T → Prop) `{!∀ kv, Decision (P kv)} m :
  NoDup (JsMap.keys m) → NoDup (JsMap.keys (filter P m)).
Proof.
  induction m as [|[k w] m IH]; [done |]. unfold JsMap.keys in *. simpl.
  rewrite NoDup_cons. intros [Hk Hm]. rewrite filter_cons.
  case_decide; simpl; [| by apply IH].
  apply NoDup_cons. split; [| by apply IH].
  intros Hin. apply Hk. by eapply (keys_filter_subset P).
Qed.

Lemma unique_keys_set_after_delete m key (entry : CacheEntry T) :
  NoDup (JsMap.keys m) →
  NoDup (JsMap.keys (JsMap.set key entry (JsMap.delete key m))).
Proof.
  intros Hm. rewrite JsMapFacts.set_absent by apply JsMapFacts.get_delete_eq.
  unfold JsMap.keys. rewrite fmap_app. simpl. apply NoDup_app. split; [| split].
  - by apply (unique_keys_filter (λ kv, kv.1 ≠ key)).
  - intros k Hin ->%list_elem_of_singleton.
    apply get_absent in Hin; [done | apply JsMapFacts.get_delete_eq].
  - apply NoDup_singleton.
Qed.

Lemma evictLRU_unique_keys c : unique_keys c → unique_keys (evictLRU c).
Proof.
  unfold unique_keys, evictLRU. destruct (JsMap.first_key (cache c)); [| done].
  case_bool_decide; [done |]. simpl.
  apply (unique_keys_filter (λ kv, kv.1 ≠ s)).
Qed.

Lemma evict_while_full_unique_keys fuel c c' :
  evict_while_full fuel c = Some c' → unique_keys c → unique_keys c'.
Proof.
  revert c. induction fuel as [|fuel IH]; intros c; simpl;
    destruct (JsMap.size (cache c) >=? maxSize c); try done;
    try (by intros [= <-]).
  intros Hloop Hc. apply (IH _ Hloop). by apply evictLRU_unique_keys.
Qed.

(** The eviction loop changes neither the configuration nor the hit and
    miss counters. *)
Lemma evict_while_full_config fuel c c' :
  evict_while_full fuel c = Some c' →
  ttl c' = ttl c ∧ enabled c' = enabled c ∧
  hits (stats c') = hits (stats c) ∧ misses (stats c') = misses (stats c).
Proof.
  revert c. induction fuel as [|fuel IH]; intros c; simpl;
    destruct (JsMap.size (cache c) >=? maxSize c); try done;
    try (by intros [= <-]).
  intros Hloop. apply IH in Hloop as (-> & -> & -> & ->).
  unfold evictLRU. destruct (JsMap.first_key (cache c)); [| done].
  by case_bool_decide.
Qed.

Lemma step_unique_keys fuel call c c' :
  step estimateSize fuel call c = Some c' → unique_keys c → unique_keys c'.
Proof.
  unfold unique_keys. destruct call as [now [key|key v|key|key| |]]; simpl.
  - intros [= <-]. unfold get. destruct (enabled c); [| done].
    destruct (JsMap.get key (cache c)) as [entry|]; [| done].
    destruct (expired c now entry); simpl.
    + apply (unique_keys_filter (λ kv, kv.1 ≠ key)).
    + apply unique_keys_set_after_delete.
  - unfold set. destruct (enabled c); simpl; [| by intros [= <-]].
    set (c1 := if JsMap.has key (cache c) then _ else c).
    destruct (evict_while_full fuel c1) as [c2|] eqn:Hloop; simpl; [| done].
    intros [= <-] Hc. simpl.
    assert (unique_keys c2) as Hc2.
    { apply (evict_while_full_unique_keys _ _ _ Hloop). subst c1.
      destruct (JsMap.has key (cache c)); [| done].
      by apply (unique_keys_filter (λ kv, kv.1 ≠ key)). }
    assert (JsMap.get key (cache c2) = None) as Hnone.
    { apply (LruOrder.evict_while_full_absent _ _ _ _ Hloop). subst c1.
      destruct (JsMap.has key (cache c)) eqn:Hhas; simpl.
      - apply JsMapFacts.get_delete_eq.
      - destruct (JsMap.get key (cache c)) eqn:Hget; [| done].
        assert (JsMap.has key (cache c) = true)
          by (apply JsMapFacts.has_get; by rewrite Hget).
        congruence. }
    rewrite JsMapFacts.set_absent by done.
    unfold JsMap.keys. rewrite fmap_app. simpl. apply NoDup_app. split; [done | split].
    + intros k Hin ->%list_elem_of_singleton. by apply get_absent in Hnone.
    + apply NoDup_singleton.
  - intros [= <-]. unfold has. destruct (enabled c); [| done].
    destruct (JsMap.get key (cache c)) as [entry|]; [| done].
    destruct (expired c now entry); simpl; [| done].
    apply (unique_keys_filter (λ kv, kv.1 ≠ key)).
  - intros [= <-]. unfold delete. destruct (enabled c); [| done]. simpl.
    apply (unique_keys_filter (λ kv, kv.1 ≠ key)).
  - intros [= <-] _. simpl. apply NoDup_nil_2.
  - intros [= <-]. simpl. apply (unique_keys_filter _).
Qed.

Lemma run_unique_keys fuel calls c c' :
  run estimateSize fuel calls c = Some c' → unique_keys c → unique_keys c'.
Proof.
  revert c. induction calls as [|call calls IH]; intros c; simpl.
  - by intros [= <-].
  - destruct (step estimateSize fuel call c) as [c1|] eqn:Hstep; simpl; [| done].
    intros Hrun Hc. apply (IH _ Hrun). by eapply step_unique_keys.
Qed.

(** What [set] leaves behind when it returns on an enabled cache: the key
    holds the new entry and the configuration is as before. *)
Lemma set_stores fuel key v now c c' :
  enabled c = true →
  set estimateSize fuel key v now c = Some c' →
  JsMap.get key (cache c') = Some (new_entry estimateSize v now) ∧
  ttl c' = ttl c ∧ enabled c' = true ∧
  hits (stats c') = hits (stats c) ∧ misses (stats c') = misses (stats c).
Proof.
  intros Hon. unfold set. rewrite Hon. simpl.
  set (c1 := if JsMap.has key (cache c) then _ else c).
  destruct (evict_while_full fuel c1) as [c2|] eqn:Hloop; simpl; [| done].
  apply evict_while_full_config in Hloop as (Httl & Hen & Hhits & Hmiss).
  intros [= <-]. simpl. rewrite JsMapFacts.get_set_eq, Httl, Hen, Hhits, Hmiss.
  subst c1. by destruct (JsMap.has key (cache c)).
Qed.

(** X1.  Round trip: a value stored by a [set] that returned is what [get]
    gives back for that key until the entry is older than [ttl], and the
    lookup counts as a hit. *)
Theorem set_then_get_hits fuel key v t0 t c c' :
  enabled c = true →
  set estimateSize fuel key v t0 c = Some c' →
  t - t0 <= ttl c →
  (get key t c').1 = Some v ∧
  hits (stats (get key t c').2) = hits (stats c) + 1 ∧
  misses (stats (get key t c').2) = misses (stats c).
Proof.
  intros Hon Hset Hfresh.
  apply set_stores in Hset as (Hget & Httl & Hen & Hhits & Hmiss); [| done].
  unfold get, expired. rewrite Hen, Hget, Httl. simpl.
  destruct (Z.gtb_spec (t - t0) (ttl c)); [lia |]. simpl. by rewrite Hhits, Hmiss.
Qed.

(** X2.  Expiry: once the entry stored by [set] is older than [ttl], [get]
    misses, counts a miss and removes the entry, and [has] answers
    [false]. *)
Theorem set_then_get_expired fuel key v t0 t c c' :
  enabled c = true →
  set estimateSize fuel key v t0 c = Some c' →
  ttl c < t - t0 →
  (get key t c').1 = None ∧
  JsMap.get key (cache (get key t c').2) = None ∧
  misses (stats (get key t c').2) = misses (stats c) + 1 ∧
  (has key t c').1 = false.
Proof.
  intros Hon Hset Hold.
  apply set_stores in Hset as (Hget & Httl & Hen & Hhits & Hmiss); [| done].
  unfold get, has, expired. rewrite Hen, Hget, Httl. simpl.
  destruct (Z.gtb_spec (t - t0) (ttl c)); [| lia]. simpl.
  rewrite JsMapFacts.get_delete_eq, Hmiss. done.
Qed.

(** X3.  [has] and [get] agree: at any time [has(key)] is [true] exactly
    when [get(key)] would return a value. *)
Theorem has_agrees_with_get key now c :
  (has key now c).1 = bool_decide (is_Some (get key now c).1).
Proof.
  unfold has, get. destruct (enabled c); simpl; [| done].
  destruct (JsMap.get key (cache c)) as [entry|]; simpl; [| done].
  by destruct (expired c now entry).
Qed.

(** X4.  A disabled cache stays as it was created whatever is called on
    it, and every call returns: nothing is stored, counted or evicted. *)
Theorem disabled_cache_is_inert fuel calls (capacity lifetime : Z) :
  run estimateSize fuel calls (create capacity lifetime false)
    = Some (create capacity lifetime false).
Proof.
  induction calls as [|[now call] calls IH]; [done |].
  simpl. destruct call; simpl; apply IH.
Qed.

Lemma get_filter_present (P : string * CacheEntry T → Prop) `{!∀ kv, Decision (P kv)} m key :
  NoDup (JsMap.keys m) →
  JsMap.get key (filter P m) =
  match JsMap.get key m with
  | Some entry => if decide (P (key, entry)) then Some entry else None
  | None => None
  end.
Proof.
  induction m as [|[k w] m IH]; [done |]. unfold JsMap.keys in *. simpl.
  rewrite NoDup_cons. intros [Hk Hm]. rewrite filter_cons.
  rewrite (JsMapFacts.get_cons m key k w).
  case_bool_decide as Hkey.
  - subst k. destruct (decide (P (key, w))).
    + rewrite JsMapFacts.get_cons. by rewrite bool_decide_true.
    + apply get_absent. intros Hin. apply Hk. by eapply (keys_filter_subset P).
  - destruct (decide (P (k, w))); [| by apply IH].
    rewrite JsMapFacts.get_cons. rewrite bool_decide_false by done. by apply IH.
Qed.

(** X5.  The sweep is invisible to readers: after [cleanup] at a time
    [swept], no stored entry is expired at that time, and a [get] at that
    time or later finds what it would have found without the sweep. *)
Theorem cleanup_is_transparent key swept now c :
  unique_keys c →
  swept <= now →
  Forall (λ kv, expired c swept kv.2 = false) (cache (cleanup swept c)) ∧
  (get key now (cleanup swept c)).1 = (get key now c).1.
Proof.
  intros Huniq Hlater. split.
  - unfold cleanup. simpl. apply Forall_forall. intros kv Hin.
    by apply list_elem_of_filter in Hin as [Hkv _].
  - unfold get, cleanup. simpl. destruct (enabled c); [| done].
    rewrite (get_filter_present (λ kv, expired c swept kv.2 = false)) by done.
    destruct (JsMap.get key (cache c)) as [entry|]; [| done].
    unfold expired in *. simpl.
    destruct (decide ((swept - timestamp entry >? ttl c) = false)) as [Hkeep|Hdrop].
    + by destruct (now - timestamp entry >? ttl c).
    + apply not_false_is_true in Hdrop. apply Z.gtb_lt in Hdrop.
      destruct (Z.gtb_spec (now - timestamp entry) (ttl c)); [done | lia].
Qed.

Lemma step_counts_lookups fuel call c c' :
  enabled c = true →
  is_clear call = false →
  step estimateSize fuel call c = Some c' →
  enabled c' = true ∧
  hits (stats c') + misses (stats c') =
    hits (stats c) + misses (stats c) + (if is_get call then 1 else 0).
Proof.
  intros Hon Hclear. destruct call as [now [key|key v|key|key| |]]; simpl in *; try done.
  - intros [= <-]. unfold get. rewrite Hon. simpl.
    destruct (JsMap.get key (cache c)) as [entry|]; simpl; [| split; [done | lia]].
    destruct (expired c now entry); simpl; split; try done; lia.
  - intros Hset. apply set_stores in Hset as (_ & _ & -> & -> & ->); [| done].
    split; [done | lia].
  - intros [= <-]. unfold has. rewrite Hon. simpl.
    destruct (JsMap.get key (cache c)) as [entry|]; simpl; [| split; [done | lia]].
    destruct (expired c now entry); simpl; split; try done; lia.
  - intros [= <-]. unfold delete. rewrite Hon. simpl. split; [done | lia].
  - intros [= <-]. simpl. split; [done | lia].
Qed.

(** X6.  The statistics count lookups: on an enabled cache that is not
    cleared, [hits + misses] is the number of [get] calls made, whatever
    else was called in between. *)
Theorem hits_and_misses_count_gets fuel calls (capacity lifetime : Z) c :
  run estimateSize fuel calls (create capacity lifetime true) = Some c →
  Forall (λ call, is_clear call = false) calls →
  hits (stats c) + misses (stats c) = Z.of_nat (length (filter (λ call, is_get call = true) calls)).
Proof.
  assert (Hgen : ∀ c0, enabled c0 = true →
    run estimateSize fuel calls c0 = Some c →
    Forall (λ call, is_clear call = false) calls →
    hits (stats c) + misses (stats c) =
      hits (stats c0) + misses (stats c0) +
      Z.of_nat (length (filter (λ call, is_get call = true) calls))).
  { induction calls as [|call calls IH]; intros c0 Hon; simpl.
    - intros [= <-] _. lia.
    - destruct (step estimateSize fuel call c0) as [c1|] eqn:Hstep; simpl; [| done].
      intros Hrun [Hclear Hrest]%Forall_cons.
      destruct (step_counts_lookups _ _ _ _ Hon Hclear Hstep) as [Hon1 Hcount].
      rewrite (IH c1 Hon1 Hrun Hrest), Hcount, filter_cons.
      destruct (is_get call); simpl; lia. }
  intros Hrun Hclear.
  by rewrite (Hgen (create capacity lifetime true) eq_refl Hrun Hclear).
Qed.

Lemma step_enabled fuel call c c' :
  step estimateSize fuel call c = Some c' → enabled c' = enabled c.
Proof.
  destruct call as [now [key|key v|key|key| |]]; simpl.
  - intros [= <-]. unfold get. destruct (enabled c) eqn:Hon; simpl; [| done].
    destruct (JsMap.get key (cache c)) as [entry|]; [| done].
    by destruct (expired c now entry).
  - destruct (enabled c) eqn:Hon.
    + intros Hset. by apply set_stores in Hset as (_ & _ & -> & _).
    + unfold set. rewrite Hon. simpl. by intros [= <-].
  - intros [= <-]. unfold has. destruct (enabled c) eqn:Hon; simpl; [| done].
    destruct (JsMap.get key (cache c)) as [entry|]; [| done].
    by destruct (expired c now entry).
  - intros [= <-]. unfold delete. by destruct (enabled c) eqn:Hon.
  - by intros [= <-].
  - by intros [= <-].
Qed.

Lemma run_enabled fuel calls c c' :
  run estimateSize fuel calls c = Some c' → enabled c' = enabled c.
Proof.
  revert c. induction calls as [|call calls IH]; intros c; simpl.
  - by intros [= <-].
  - destruct (step estimateSize fuel call c) as [c1|] eqn:Hstep; simpl; [| done].
    intros Hrun. rewrite (IH _ Hrun). by eapply step_enabled.
Qed.

(** X7.  Eviction order on a cache reached by calls: when the cache is
    exactly full and its oldest key is not the empty string, [set] of a
    key that is not stored evicts the oldest entry and no other, counts
    one eviction and puts the new key last. *)
Theorem set_evicts_exactly_the_oldest fuel calls (capacity lifetime : Z) c
    key v now oldest entry rest :
  run estimateSize fuel calls (create capacity lifetime true) = Some c →
  cache c = (oldest, entry) :: rest →
  oldest ≠ EmptyString →
  JsMap.get key (cache c) = None →
  JsMap.size (cache c) = maxSize c →
  set estimateSize 1 key v now c =
    Some (count_eviction (with_cache c (rest ++ [(key, new_entry estimateSize v now)]))).
Proof.
  intros Hrun Hcache Holdest Hnew Hfull.
  assert (unique_keys c) as Huniq
    by (apply (run_unique_keys _ _ _ _ Hrun); apply NoDup_nil_2).
  assert (enabled c = true) as Hon by apply (run_enabled _ _ _ _ Hrun).
  apply (LruOrder.set_fresh_evicts_oldest estimateSize 1 key v now c oldest entry rest);
    try done.
  apply get_absent. unfold unique_keys, JsMap.keys in Huniq. rewrite Hcache in Huniq.
  simpl in Huniq. by apply NoDup_cons in Huniq as [Hk _].
Qed.

End Facts.

(** X1, a run: a value read back 500 ms after it was stored. *)
Lemma set_then_get_hits_run :
  (get "a" 500 (with_cache (create 2 1000 true)
                  [("a", new_entry (λ _ : Z, 64) 7 0)])).1 = Some 7 ∧
  hits (stats (get "a" 500 (with_cache (create 2 1000 true)
                              [("a", new_entry (λ _ : Z, 64) 7 0)])).2) = 1 ∧
  misses (stats (get "a" 500 (with_cache (create 2 1000 true)
                                [("a", new_entry (λ _ : Z, 64) 7 0)])).2) = 0.
Proof.
  apply (set_then_get_hits (λ _ : Z, 64) 1 "a" 7 0 500 (create 2 1000 true));
    [reflexivity | reflexivity | simpl; lia].
Defined.

(** X2, a run: the same value looked up 5000 ms after it was stored. *)
Lemma set_then_get_expired_run :
  (get "a" 5000 (with_cache (create 2 1000 true)
                   [("a", new_entry (λ _ : Z, 64) 7 0)])).1 = None ∧
  JsMap.get "a" (cache (get "a" 5000 (with_cache (create 2 1000 true)
                          [("a", new_entry (λ _ : Z, 64) 7 0)])).2) = None ∧
  misses (stats (get "a" 5000 (with_cache (create 2 1000 true)
                                 [("a", new_entry (λ _ : Z, 64) 7 0)])).2) = 1 ∧
  (has "a" 5000 (with_cache (create 2 1000 true)
                   [("a", new_entry (λ _ : Z, 64) 7 0)])).1 = false.
Proof.
  apply (set_then_get_expired (λ _ : Z, 64) 1 "a" 7 0 5000 (create 2 1000 true));
    [reflexivity | reflexivity | simpl; lia].
Defined.

(** X5, a run: a sweep at 1500 removes the entry of time 0 and keeps the
    entry of time 900, which a reader finds at 1600 as before. *)
Lemma cleanup_is_transparent_run :
  Forall (λ kv, expired two_entries 1500 kv.2 = false)
         (cache (cleanup 1500 two_entries)) ∧
  (get "b" 1600 (cleanup 1500 two_entries)).1 = (get "b" 1600 two_entries).1.
Proof.
  apply (cleanup_is_transparent "b" 1500 1600 two_entries);
    [apply (bool_decide_unpack _); vm_compute; reflexivity | lia].
Defined.

(** X6, a run: two lookups among four calls. *)
Lemma hits_and_misses_count_gets_run :
  hits (stats after_lookups) + misses (stats after_lookups) = 2.
Proof.
  apply (hits_and_misses_count_gets (λ _ : Z, 64) 2
           (two_sets ++ [(950, CallGet "a"); (960, CallGet "zz")]) 2 1000);
    [vm_compute; reflexivity | repeat constructor].
Defined.

(** X7, a run: a third key set on the full cache of two. *)
Lemma set_evicts_exactly_the_oldest_run :
  set (λ _ : Z, 64) 1 "c" 3 950 two_entries =
    Some (count_eviction
            (with_cache two_entries
               (tail (cache two_entries) ++ [("c", new_entry (λ _ : Z, 64) 3 950)]))).
Proof.
  apply (set_evicts_exactly_the_oldest (λ _ : Z, 64) 2 two_sets 2 1000 two_entries
           "c" 3 950 "a"
           {| value := 1; timestamp := 0; accessCount := 1; lastAccessed := 0;
              size := 64 |});
    [vm_compute; reflexivity | reflexivity | discriminate | reflexivity | reflexivity].
Defined.

End CacheUseFacts.

(** *** Recency: what a lookup protects *)

Module RecencyFacts.
Import Cache CacheUse.

Section Facts.
Context {T : Type} (estimateSize : T → Z).

Lemma get_snoc_absent (m : list (string * CacheEntry T)) key entry :
  JsMap.get key m = None → JsMap.get key (m ++ [(key, entry)]) = Some entry.
Proof.
  induction m as [|[k e] m IH]; simpl.
  - intros _. rewrite JsMapFacts.get_cons. by rewrite bool_decide_true.
  - rewrite !JsMapFacts.get_cons. by case_bool_decide.
Qed.

Lemma delete_snoc_ne (m : list (string * CacheEntry T)) key key' entry :
  key' ≠ key →
  JsMap.delete key' (m ++ [(key, entry)]) = JsMap.delete key' m ++ [(key, entry)].
Proof.
  intros Hne. unfold JsMap.delete. rewrite filter_app. f_equal.
  rewrite filter_cons. simpl. by destruct (decide (key ≠ key')).
Qed.

(** The eviction loop never reaches the last key of a cache of capacity
    two or more. *)
Lemma evict_while_full_keeps_last fuel (c c2 : LRUCache T) before key entry :
  2 <= maxSize c →
  cache c = before ++ [(key, entry)] →
  JsMap.get key before = None →
  evict_while_full fuel c = Some c2 →
  ∃ before', cache c2 = before' ++ [(key, entry)] ∧ JsMap.get key before' = None.
Proof.
  revert c before. induction fuel as [|fuel IH]; intros c before Hcap Hcache Hfresh;
    rewrite CacheFacts.evict_while_full_unfold;
    destruct (Z.geb_spec (JsMap.size (cache c)) (maxSize c)) as [Hfull|Hroom];
    try done; try (intros [= <-]; by exists before).
  destruct before as [|[k0 e0] rest].
  { rewrite Hcache in Hfull. unfold JsMap.size in Hfull. simpl in Hfull. lia. }
  rewrite JsMapFacts.get_cons in Hfresh.
  case_bool_decide as Hk0; [done |].
  unfold evictLRU. rewrite Hcache. simpl.
  case_bool_decide as Hempty.
  { apply (IH c ((k0, e0) :: rest)); [done | done |].
    rewrite JsMapFacts.get_cons. by rewrite bool_decide_false. }
  apply (IH _ (JsMap.delete k0 ((k0, e0) :: rest))); [done | |].
  - simpl. change ((k0, e0) :: rest ++ [(key, entry)])
      with (((k0, e0) :: rest) ++ [(key, entry)]).
    by apply delete_snoc_ne.
  - rewrite JsMapFacts.get_delete_ne by done.
    rewrite JsMapFacts.get_cons. by rewrite bool_decide_false.
Qed.

(** X24.  Least recently used means what it says: in a cache of capacity
    two or more, a key that [get] has just returned is not the one the
    next [set] of another key evicts; it is still stored, with its value,
    after that [set]. *)
Theorem read_key_survives_next_set fuel key v t key' v' t' (c c' : LRUCache T) :
  2 <= maxSize c →
  (get key t c).1 = Some v →
  key' ≠ key →
  set estimateSize fuel key' v' t' (get key t c).2 = Some c' →
  value <$> JsMap.get key (cache c') = Some v.
Proof.
  intros Hcap Hhit Hne. unfold get in *.
  destruct (enabled c) eqn:Hon; [| done]. simpl in *.
  destruct (JsMap.get key (cache c)) as [entry|] eqn:Hget; [| done].
  destruct (expired c t entry); [done |]. simpl in *. injection Hhit as <-.
  rewrite JsMapFacts.set_absent by apply JsMapFacts.get_delete_eq.
  set (entry' := {| value := value entry; timestamp := timestamp entry;
                    accessCount := accessCount entry + 1; lastAccessed := t;
                    size := size entry |}).
  unfold set. simpl. rewrite Hon. simpl.
  set (c1 := if JsMap.has key' (JsMap.delete key (cache c) ++ [(key, entry')])
             then _ else _).
  assert (∃ before, cache c1 = before ++ [(key, entry')] ∧
                    JsMap.get key before = None ∧ maxSize c1 = maxSize c)
    as (before & Hcache1 & Hfresh1 & Hmax1).
  { subst c1. destruct (JsMap.has key' _); simpl.
    - exists (JsMap.delete key' (JsMap.delete key (cache c))).
      rewrite delete_snoc_ne by done. split; [done |]. split; [| done].
      rewrite JsMapFacts.get_delete_ne by done. apply JsMapFacts.get_delete_eq.
    - exists (JsMap.delete key (cache c)). split; [done |]. split; [| done].
      apply JsMapFacts.get_delete_eq. }
  destruct (evict_while_full fuel c1) as [c2|] eqn:Hloop; [| done]. simpl.
  intros [= <-]. simpl.
  destruct (evict_while_full_keeps_last fuel c1 c2 before key entry')
    as (before' & Hcache2 & Hfresh2); [lia | done.. |].
  rewrite JsMapFacts.get_set_ne by done.
  rewrite Hcache2, get_snoc_absent by done. done.
Qed.

End Facts.

(** X24, a run: ["a"], the older entry of the full cache, is read and
    then ["c"] is stored; ["b"] is evicted and ["a"] stays. *)
Lemma read_key_survives_next_set_run :
  value <$> JsMap.get "a" (cache after_read_and_set) = Some 1.
Proof.
  apply (read_key_survives_next_set (λ _ : Z, 64) 1 "a" 1 950 "c" 3 960 two_entries);
    [simpl; lia | reflexivity | discriminate | vm_compute; reflexivity].
Defined.

End RecencyFacts.

(** *** createCachedFunction *)

Module CachedFunctionFacts.
Import Cache CacheUse.

Section Facts.
Context {T A W : Type} (estimateSize : T → Z).
Context (is_undefined : T → bool).
Context (fn : A → W → result string T * W) (keyGenerator : A → string).

Lemma get_config (key : string) (now : Z) (c : LRUCache T) :
  ttl (get key now c).2 = ttl c ∧ enabled (get key now c).2 = enabled c.
Proof.
  unfold get. destruct (enabled c) eqn:Hon; simpl; [| done].
  destruct (JsMap.get key (cache c)) as [entry|]; [| done].
  by destruct (expired c now entry).
Qed.

(** X8.  Memoisation: after a call of the cached function that missed,
    ran [fn] and stored its result, a second call with the same key made
    before the entry is older than [ttl] returns that result and does not
    run [fn]: the world is left as the first call left it. *)
Theorem cached_function_runs_once fuel fuel2 args t1 t1' t2 t2' w w1 r
    (c c1 : LRUCache T) :
  enabled c = true →
  (cached_lookup is_undefined keyGenerator args t1 c).1 = None →
  cachedCall estimateSize is_undefined fn keyGenerator fuel args t1 t1' w c
    = Some (Return r, w1, c1) →
  is_undefined r = false →
  t2 - t1' <= ttl c →
  ∃ c2, cachedCall estimateSize is_undefined fn keyGenerator fuel2 args t2 t2' w1 c1
          = Some (Return r, w1, c2).
Proof.
  intros Hon Hmiss Hcall Hdefined Hfresh.
  unfold cachedCall in Hcall.
  destruct (cached_lookup is_undefined keyGenerator args t1 c) as [found c0] eqn:Hlookup.
  simpl in Hmiss. subst found.
  assert (ttl c0 = ttl c ∧ enabled c0 = true) as [Httl0 Hon0].
  { unfold cached_lookup in Hlookup.
    destruct (get_config (keyGenerator args) t1 c) as [Httl Hen].
    destruct (get (keyGenerator args) t1 c) as [[cached|] cg]; simpl in *.
    - destruct (is_undefined cached); simplify_eq. by rewrite Hen.
    - simplify_eq. by rewrite Hen. }
  destruct (fn args w) as [[r0|e] w0]; [| done].
  unfold cached_store in Hcall.
  destruct (set estimateSize fuel (keyGenerator args) r0 t1' c0) as [cs|] eqn:Hset;
    simpl in Hcall; [| done].
  injection Hcall as -> -> ->.
  apply CacheUseFacts.set_stores in Hset as (Hget & Httl & Hen & _); [| done].
  unfold cachedCall, cached_lookup, get, expired.
  rewrite Hen, Hget, Httl, Httl0. simpl.
  destruct (Z.gtb_spec (t2 - t1') (ttl c)); [lia |]. simpl.
  rewrite Hdefined. eauto.
Qed.

End Facts.

(** The function of the concrete run: it doubles its argument and counts
    its runs in the world. *)
Lemma cached_function_runs_once_run :
  ∃ c2, cachedCall (λ _ : Z, 64) (λ _, false)
          (λ (a : Z) (runs : nat), (Return (2 * a), S runs)) (λ a, pretty a)
          0 21 70 71 1%nat
          (with_cache (count_miss (create 2 1000 true))
             [("21", new_entry (λ _ : Z, 64) 42 11)])
        = Some (Return 42, 1%nat, c2).
Proof.
  apply (cached_function_runs_once (λ _ : Z, 64) (λ _, false)
           (λ (a : Z) (runs : nat), (Return (2 * a), S runs)) (λ a, pretty a)
           0 0 21 10 11 70 71 0%nat 1%nat 42 (create 2 1000 true));
    [reflexivity | reflexivity | vm_compute; reflexivity | reflexivity | vm_compute; discriminate].
Defined.

End CachedFunctionFacts.

(** *** RateLimiter: windows, budgets, sweep *)

Module RateLimitUseFacts.
Import RateLimit RateLimitUse.

Lemma step_windows_in_range (rl : RateLimiter) (c : Z * call) :
  windows_in_range rl → windows_in_range (step rl c).
Proof.
  unfold windows_in_range. intros Hrl. destruct c as [now [id|id|id|]]; simpl.
  - unfold checkLimit. destruct (enabled rl); simpl; [| done].
    assert (Hfresh : ∀ identifier entry,
      <[id := fresh_window rl now]> (store rl) !! identifier = Some entry →
      1 <= count entry ∧ count entry <= Z.max 1 (maxRequests rl) ∧
      resetTime entry = firstRequest entry + windowMs rl).
    { intros identifier entry. destruct (decide (id = identifier)) as [->|Hne].
      - rewrite lookup_insert_eq. intros [= <-]. simpl. lia.
      - rewrite lookup_insert_ne by done. apply Hrl. }
    destruct (store rl !! id) as [e|] eqn:He; simpl; [| done].
    destruct (now >=? resetTime e); simpl; [done |].
    destruct (Z.geb_spec (count e) (maxRequests rl)); simpl; [done |].
    intros identifier entry. destruct (decide (id = identifier)) as [->|Hne].
    + rewrite lookup_insert_eq. intros [= <-]. simpl.
      destruct (Hrl _ _ He) as (? & ? & ?). lia.
    + rewrite lookup_insert_ne by done. apply Hrl.
  - unfold getStatus. destruct (enabled rl); simpl; [| done].
    destruct (store rl !! id) as [e|]; simpl; [| done].
    by destruct (now >=? resetTime e).
  - intros identifier entry Hlook. apply lookup_delete_Some in Hlook as [_ Hlook].
    by eapply Hrl.
  - intros identifier entry Hlook. apply map_lookup_filter_Some in Hlook as [Hlook _].
    by eapply Hrl.
Qed.

Lemma run_windows_in_range (calls : list (Z * call)) (rl : RateLimiter) :
  windows_in_range rl → windows_in_range (run calls rl).
Proof.
  unfold run. revert rl. induction calls as [|c calls IH]; intros rl Hrl; simpl; [done |].
  apply IH. by apply step_windows_in_range.
Qed.

(** No call changes the configuration of the limiter. *)
Lemma run_config (calls : list (Z * call)) (rl : RateLimiter) :
  maxRequests (run calls rl) = maxRequests rl ∧ windowMs (run calls rl) = windowMs rl.
Proof.
  unfold run. revert rl. induction calls as [|c calls IH]; intros rl; simpl; [done |].
  destruct (IH (step rl c)) as [-> ->].
  destruct c as [now [id|id|id|]]; simpl; try done.
  - unfold checkLimit. destruct (enabled rl); simpl; [| done].
    destruct (store rl !! id) as [e|]; simpl; [| done].
    destruct (now >=? resetTime e); simpl; [done |].
    by destruct (count e >=? maxRequests rl).
  - unfold getStatus. destruct (enabled rl); simpl; [| done].
    destruct (store rl !! id) as [e|]; simpl; [| done].
    by destruct (now >=? resetTime e).
Qed.

(** X9.  Every window a limiter stores, after any sequence of checks,
    status reads, resets and sweeps, has counted at least one request and
    at most [maxRequests] (one, if the limit is set below one), and ends
    [windowMs] after its first request. *)
Theorem stored_windows_in_range (calls : list (Z * call)) (window limit : Z)
    (on : bool) (identifier : string) (entry : RateLimitEntry) :
  store (run calls (create window limit on)) !! identifier = Some entry →
  1 <= count entry ∧ count entry <= Z.max 1 limit ∧
  resetTime entry = firstRequest entry + window.
Proof.
  intros Hlook.
  destruct (run_config calls (create window limit on)) as [Hmax Hwin].
  simpl in Hmax, Hwin.
  assert (windows_in_range (run calls (create window limit on))) as Hrange.
  { apply run_windows_in_range. intros id e. simpl. by rewrite lookup_empty. }
  destruct (Hrange identifier entry Hlook) as (Hone & Hcount & Hend).
  rewrite Hmax in Hcount. rewrite Hwin in Hend. done.
Qed.

(** Inside a window holding [count] requests: the next calls are allowed
    while there is room and refused from then on. *)
Lemma checkLimits_in_window (identifier : string) (times : list Z) (rl : RateLimiter)
    (entry : RateLimitEntry) :
  enabled rl = true →
  store rl !! identifier = Some entry →
  1 <= count entry →
  Forall (λ t, t < resetTime entry) times →
  allowed <$> (checkLimits identifier times rl).1 =
    replicate (min (length times) (Z.to_nat (maxRequests rl - count entry))) true ++
    replicate (length times - Z.to_nat (maxRequests rl - count entry)) false.
Proof.
  revert rl entry. induction times as [|t times IH]; intros rl entry Hon Hentry Hpos Hin;
    [done |].
  apply Forall_cons in Hin as [Ht Hin].
  destruct (Z.lt_ge_cases (count entry) (maxRequests rl)) as [Hroom|Hfull].
  - replace (min (length (t :: times)) (Z.to_nat (maxRequests rl - count entry)))
      with (S (min (length times) (Z.to_nat (maxRequests rl - (count entry + 1)))))
      by (simpl length; lia).
    replace (length (t :: times) - Z.to_nat (maxRequests rl - count entry))%nat
      with (length times - Z.to_nat (maxRequests rl - (count entry + 1)))%nat
      by (simpl length; lia).
    simpl.
    rewrite (RateLimitFacts.checkLimit_counts _ _ _ _ Hon Hentry Ht Hroom).
    set (entry' := {| count := count entry + 1; resetTime := resetTime entry;
                      firstRequest := firstRequest entry |}).
    specialize (IH (with_store rl (<[identifier := entry']> (store rl))) entry' Hon
                  (lookup_insert_eq _ _ _)).
    destruct (checkLimits identifier times _) as [rs rl2]. simpl.
    f_equal. apply IH; [simpl; lia | done].
  - replace (min (length (t :: times)) (Z.to_nat (maxRequests rl - count entry)))
      with 0%nat by lia.
    replace (length (t :: times) - Z.to_nat (maxRequests rl - count entry))%nat
      with (S (length times - Z.to_nat (maxRequests rl - count entry)))%nat
      by (simpl length; lia).
    simpl.
    rewrite (RateLimitFacts.checkLimit_rejects _ _ _ _ Hon Hentry Ht Hfull).
    specialize (IH rl entry Hon Hentry Hpos Hin).
    destruct (checkLimits identifier times rl) as [rs rl2]. simpl.
    f_equal. simpl in IH. etrans; [exact IH |].
    replace (min (length times) (Z.to_nat (maxRequests rl - count entry)))
      with 0%nat by lia.
    done.
Qed.

(** X10.  A window admits exactly [maxRequests] requests: of the calls an
    identifier makes from its first request until the window ends, the
    first [maxRequests] are allowed and all later ones refused, in
    whatever order their clock readings come. *)
Theorem window_admits_exactly_the_limit (identifier : string) (window limit first : Z)
    (times : list Z) :
  1 <= limit →
  Forall (λ t, t < first + window) times →
  allowed <$> (checkLimits identifier (first :: times) (create window limit true)).1 =
    replicate (min (S (length times)) (Z.to_nat limit)) true ++
    replicate (S (length times) - Z.to_nat limit) false.
Proof.
  intros Hlimit Hin.
  replace (min (S (length times)) (Z.to_nat limit))
    with (S (min (length times) (Z.to_nat (limit - 1)))) by lia.
  replace (S (length times) - Z.to_nat limit)%nat
    with (length times - Z.to_nat (limit - 1))%nat by lia.
  simpl.
  rewrite RateLimitFacts.checkLimit_first by done.
  pose proof (checkLimits_in_window identifier times
    (with_store (create window limit true)
       (<[identifier := fresh_window (create window limit true) first]> ∅))
    (fresh_window (create window limit true) first) eq_refl
    (lookup_insert_eq _ _ _)) as Hrest.
  destruct (checkLimits identifier times _) as [rs rl2]. simpl.
  f_equal. apply Hrest; [simpl; lia | done].
Qed.

(** X11.  [getStatus] is a preview of [checkLimit]: at the same instant
    both give the same verdict, reset time and retry delay; [checkLimit]
    only reports one request less remaining when it admits the request of
    an enabled limiter. *)
Theorem getStatus_previews_checkLimit (identifier : string) (now : Z) (rl : RateLimiter) :
  let status := (getStatus identifier now rl).1 in
  let verdict := (checkLimit identifier now rl).1 in
  allowed verdict = allowed status ∧
  resultResetTime verdict = resultResetTime status ∧
  retryAfter verdict = retryAfter status ∧
  remaining verdict =
    (if enabled rl && allowed status then remaining status - 1 else remaining status).
Proof.
  unfold getStatus, checkLimit. destruct (enabled rl); simpl; [| done].
  destruct (store rl !! identifier) as [entry|]; simpl; [| done].
  destruct (now >=? resetTime entry); simpl; [done |].
  destruct (Z.geb_spec (count entry) (maxRequests rl)); simpl.
  - destruct (Z.ltb_spec (count entry) (maxRequests rl)); [lia |].
    simpl. repeat split. lia.
  - destruct (Z.ltb_spec (count entry) (maxRequests rl)); [| lia].
    simpl. repeat split. lia.
Qed.

(** X12.  The sweep is invisible to callers: on an enabled limiter a
    [checkLimit] made at or after the time of a [cleanup] gets the answer,
    and leaves the window of its identifier, as if the sweep had not
    run. *)
Theorem sweep_is_transparent (identifier : string) (swept now : Z) (rl : RateLimiter) :
  enabled rl = true →
  swept <= now →
  (checkLimit identifier now (cleanup swept rl)).1 = (checkLimit identifier now rl).1 ∧
  store (checkLimit identifier now (cleanup swept rl)).2 !! identifier =
    store (checkLimit identifier now rl).2 !! identifier.
Proof.
  intros Hon Hlater. unfold checkLimit, cleanup. simpl. rewrite Hon. simpl.
  destruct (store rl !! identifier) as [entry|] eqn:Hentry.
  - destruct (decide (swept < resetTime entry)) as [Hkept|Hgone].
    + rewrite (map_lookup_filter_Some_2 _ _ _ _ Hentry Hkept).
      destruct (now >=? resetTime entry); simpl.
      { by rewrite !lookup_insert_eq. }
      destruct (count entry >=? maxRequests rl); simpl.
      * split; [done |]. by rewrite (map_lookup_filter_Some_2 _ _ _ _ Hentry Hkept).
      * by rewrite !lookup_insert_eq.
    + rewrite map_lookup_filter_None_2.
      2:{ right. intros x Hx. rewrite Hentry in Hx. injection Hx as <-. done. }
      destruct (Z.geb_spec now (resetTime entry)); [| lia]. simpl.
      by rewrite !lookup_insert_eq.
  - rewrite map_lookup_filter_None_2 by (by left). simpl.
    by rewrite !lookup_insert_eq.
Qed.

Lemma checkLimit_frame (identifier other : string) (now : Z) (rl : RateLimiter) :
  other ≠ identifier →
  store (checkLimit identifier now rl).2 !! other = store rl !! other ∧
  enabled (checkLimit identifier now rl).2 = enabled rl ∧
  maxRequests (checkLimit identifier now rl).2 = maxRequests rl ∧
  windowMs (checkLimit identifier now rl).2 = windowMs rl.
Proof.
  intros Hne. unfold checkLimit. destruct (enabled rl) eqn:Hon; simpl; [| done].
  destruct (store rl !! identifier) as [entry|]; simpl.
  - destruct (now >=? resetTime entry); simpl.
    { by rewrite lookup_insert_ne. }
    destruct (count entry >=? maxRequests rl); simpl; [done |].
    by rewrite lookup_insert_ne.
  - by rewrite lookup_insert_ne.
Qed.

(** X13.  Budgets are per identifier: however many requests one
    identifier makes, the status of every other identifier is what it was
    before. *)
Theorem budgets_are_independent (identifier other : string) (times : list Z)
    (now : Z) (rl : RateLimiter) :
  other ≠ identifier →
  (getStatus other now (checkLimits identifier times rl).2).1 = (getStatus other now rl).1.
Proof.
  intros Hne. revert rl. induction times as [|t times IH]; intros rl; [done |].
  simpl. destruct (checkLimit identifier t rl) as [r rl1] eqn:Hcheck.
  specialize (IH rl1). destruct (checkLimits identifier times rl1) as [rs rl2].
  simpl in *. rewrite IH.
  destruct (checkLimit_frame identifier other t rl Hne) as (Hstore & Hon & Hmax & Hwin).
  rewrite Hcheck in *. simpl in *.
  unfold getStatus. rewrite Hstore, Hon, Hmax, Hwin.
  destruct (enabled rl); simpl; [| done].
  destruct (store rl !! other) as [e|]; simpl; [| done].
  by destruct (now >=? resetTime e).
Qed.

(** X14.  A disabled limiter admits every request, always reports
    [maxRequests] remaining, and never stores a window. *)
Theorem disabled_limiter_admits_all (identifier : string) (times : list Z)
    (rl : RateLimiter) :
  enabled rl = false →
  (checkLimits identifier times rl).2 = rl ∧
  Forall (λ r, allowed r = true ∧ remaining r = maxRequests rl ∧ retryAfter r = None)
         (checkLimits identifier times rl).1.
Proof.
  intros Hoff. induction times as [|t times IH]; [by split |].
  assert (checkLimit identifier t rl =
            ({| allowed := true; remaining := maxRequests rl;
                resultResetTime := t + windowMs rl; retryAfter := None |}, rl)) as Hcheck
    by (unfold checkLimit; by rewrite Hoff).
  cbn [checkLimits]. rewrite Hcheck.
  destruct (checkLimits identifier times rl) as [rs rl2]. simpl in *.
  destruct IH as [-> Hall]. split; [done |]. by constructor.
Qed.

Section Wrap.
Context {W R : Type} (operation : W → R * W).

Lemma withRateLimit_calls_in_window (identifier : string) (times : list Z)
    (w : W) (rl : RateLimiter) (entry : RateLimitEntry) :
  enabled rl = true →
  store rl !! identifier = Some entry →
  Forall (λ t, t < resetTime entry) times →
  threw <$> (withRateLimit_calls operation identifier times w rl).1.1 =
    replicate (min (length times) (Z.to_nat (maxRequests rl - count entry))) false ++
    replicate (length times - Z.to_nat (maxRequests rl - count entry)) true ∧
  (withRateLimit_calls operation identifier times w rl).1.2 =
    iterate_operation operation
      (min (length times) (Z.to_nat (maxRequests rl - count entry))) w ∧
  Forall refusal_well_formed (withRateLimit_calls operation identifier times w rl).1.1.
Proof.
  revert w rl entry. induction times as [|t times IH]; intros w rl entry Hon Hentry Hin;
    [by repeat split |].
  apply Forall_cons in Hin as [Ht Hin].
  destruct (Z.lt_ge_cases (count entry) (maxRequests rl)) as [Hroom|Hfull].
  - replace (min (length (t :: times)) (Z.to_nat (maxRequests rl - count entry)))
      with (S (min (length times) (Z.to_nat (maxRequests rl - (count entry + 1)))))
      by (simpl length; lia).
    replace (length (t :: times) - Z.to_nat (maxRequests rl - count entry))%nat
      with (length times - Z.to_nat (maxRequests rl - (count entry + 1)))%nat
      by (simpl length; lia).
    cbn [withRateLimit_calls iterate_operation replicate app]. unfold withRateLimit.
    rewrite (RateLimitFacts.checkLimit_counts _ _ _ _ Hon Hentry Ht Hroom).
    cbn [allowed].
    set (entry' := {| count := count entry + 1; resetTime := resetTime entry;
                      firstRequest := firstRequest entry |}).
    destruct (operation w) as [x w1] eqn:Hop.
    specialize (IH w1 (with_store rl (<[identifier := entry']> (store rl))) entry' Hon
                  (lookup_insert_eq _ _ _) Hin).
    destruct (withRateLimit_calls operation identifier times w1 _) as [[xs w2] rl2].
    simpl in *. destruct IH as (Hflags & -> & Hall).
    split; [f_equal; exact Hflags |]. split; [done | by constructor].
  - replace (min (length (t :: times)) (Z.to_nat (maxRequests rl - count entry)))
      with 0%nat by lia.
    replace (length (t :: times) - Z.to_nat (maxRequests rl - count entry))%nat
      with (S (length times - Z.to_nat (maxRequests rl - count entry)))
      by (simpl length; lia).
    cbn [withRateLimit_calls iterate_operation replicate app]. unfold withRateLimit.
    rewrite (RateLimitFacts.checkLimit_rejects _ _ _ _ Hon Hentry Ht Hfull).
    cbn [allowed retryAfter].
    specialize (IH w rl entry Hon Hentry Hin).
    destruct (withRateLimit_calls operation identifier times w rl) as [[xs w2] rl2].
    simpl in *. destruct IH as (Hflags & -> & Hall).
    replace (min (length times) (Z.to_nat (maxRequests rl - count entry)))
      with 0%nat in * by lia.
    split; [f_equal; exact Hflags |]. split; [done |].
    constructor; [| done]. simpl. split; [done |].
    eexists. split; [done |]. split; [| done].
    pose proof (RateLimitFacts.ceil_seconds_pos (resetTime entry - t)). lia.
Qed.

(** X15.  On an enabled limiter with [maxRequests] of at least one, a
    rate-limited function runs its operation at most [maxRequests] times
    per window: of the consecutive calls made from the first request
    until the window ends, the first [maxRequests] return and all later
    ones throw; the operation has run once for each call that returned
    and not at all for the others; each error thrown has the code
    [RATE_LIMIT_EXCEEDED], a retry delay of at least one second and the
    message made from that delay. *)
Theorem rate_limited_function_runs_within_budget (identifier : string)
    (window limit first : Z) (times : list Z) (w : W) :
  1 <= limit →
  Forall (λ t, t < first + window) times →
  threw <$> (withRateLimit_calls operation identifier (first :: times) w
               (create window limit true)).1.1 =
    replicate (min (S (length times)) (Z.to_nat limit)) false ++
    replicate (S (length times) - Z.to_nat limit) true ∧
  (withRateLimit_calls operation identifier (first :: times) w
     (create window limit true)).1.2 =
    iterate_operation operation (min (S (length times)) (Z.to_nat limit)) w ∧
  Forall refusal_well_formed
    (withRateLimit_calls operation identifier (first :: times) w
       (create window limit true)).1.1.
Proof.
  intros Hlimit Hin.
  replace (min (S (length times)) (Z.to_nat limit))
    with (S (min (length times) (Z.to_nat (limit - 1)))) by lia.
  replace (S (length times) - Z.to_nat limit)%nat
    with (length times - Z.to_nat (limit - 1))%nat by lia.
  cbn [withRateLimit_calls iterate_operation replicate app]. unfold withRateLimit.
  rewrite RateLimitFacts.checkLimit_first by done. cbn [allowed].
  destruct (operation w) as [x w1] eqn:Hop.
  pose proof (withRateLimit_calls_in_window identifier times w1
    (with_store (create window limit true)
       (<[identifier := fresh_window (create window limit true) first]> ∅))
    (fresh_window (create window limit true) first) eq_refl
    (lookup_insert_eq _ _ _) Hin) as Hrest.
  destruct (withRateLimit_calls operation identifier times w1 _) as [[xs w2] rl2].
  simpl in *. destruct Hrest as (Hflags & -> & Hall).
  replace (limit - 1 - 0) with (limit - 1) in * by lia.
  split; [f_equal; exact Hflags |]. split; [done | by constructor].
Qed.

End Wrap.

(** X9, a run: the window of an identifier after two checks, a status
    read of another identifier and a sweep. *)
Lemma stored_windows_in_range_run :
  1 <= 2 ∧ 2 <= Z.max 1 3 ∧ 1000 = 0 + 1000.
Proof.
  apply (stored_windows_in_range
           [(0, Check "u"); (10, Check "u"); (20, Status "v"); (30, Sweep)]
           1000 3 true "u" {| count := 2; resetTime := 1000; firstRequest := 0 |}).
  vm_compute; reflexivity.
Defined.

(** X10, a run: four requests on a window of two. *)
Lemma window_admits_exactly_the_limit_run :
  allowed <$> (checkLimits "u" [0; 10; 5; 999] (create 1000 2 true)).1
  = [true; true; false; false].
Proof.
  apply (window_admits_exactly_the_limit "u" 1000 2 0 [10; 5; 999]);
    [lia | repeat constructor].
Defined.

(** X12, a run: a sweep at 1500 of the used-up window that ended at 1000. *)
Lemma sweep_is_transparent_run :
  (checkLimit "u" 2000 (cleanup 1500 spent)).1 = (checkLimit "u" 2000 spent).1 ∧
  store (checkLimit "u" 2000 (cleanup 1500 spent)).2 !! "u" =
    store (checkLimit "u" 2000 spent).2 !! "u".
Proof.
  apply (sweep_is_transparent "u" 1500 2000 spent); [reflexivity | lia].
Defined.

(** X13, a run: three requests of ["v"] leave the status of ["u"] alone. *)
Lemma budgets_are_independent_run :
  (getStatus "u" 500 (checkLimits "v" [100; 200; 300] spent).2).1
  = (getStatus "u" 500 spent).1.
Proof.
  apply (budgets_are_independent "v" "u" [100; 200; 300] 500 spent). discriminate.
Defined.

(** X14, a run: two requests on a disabled limiter. *)
Lemma disabled_limiter_admits_all_run :
  (checkLimits "u" [0; 1] (create 1000 3 false)).2 = create 1000 3 false ∧
  Forall (λ r, allowed r = true ∧ remaining r = 3 ∧ retryAfter r = None)
         (checkLimits "u" [0; 1] (create 1000 3 false)).1.
Proof.
  apply (disabled_limiter_admits_all "u" [0; 1] (create 1000 3 false)). reflexivity.
Defined.

(** X15, a run: three calls of a function limited to two per window; the
    operation counts its runs in the world. *)
Lemma rate_limited_function_runs_within_budget_run :
  threw <$> (withRateLimit_calls (λ runs : nat, (tt, S runs)) "u" [0; 10; 20] 0%nat
               (create 1000 2 true)).1.1 = [false; false; true] ∧
  (withRateLimit_calls (λ runs : nat, (tt, S runs)) "u" [0; 10; 20] 0%nat
     (create 1000 2 true)).1.2 = 2%nat ∧
  Forall refusal_well_formed
    (withRateLimit_calls (λ runs : nat, (tt, S runs)) "u" [0; 10; 20] 0%nat
       (create 1000 2 true)).1.1.
Proof.
  apply (rate_limited_function_runs_within_budget (λ runs : nat, (tt, S runs))
           "u" 1000 2 0 [10; 20] 0%nat); [lia | repeat constructor].
Defined.

End RateLimitUseFacts.

(** *** SecurityValidator: what an accepted input looks like *)

Module SecurityUseFacts.
Import Regex Security Sanitize.

Lemma matches_any_false (patterns : list RegExp) (pattern : RegExp) (s : jsstring) :
  matches_any patterns s = false → pattern ∈ patterns → test pattern s = false.
Proof.
  intros Hnone Hin. destruct (test pattern s) eqn:Ht; [| done].
  by rewrite (SecurityFacts.matches_any_elem _ _ _ Hin Ht) in Hnone.
Qed.

(** A class pattern that does not match: no character is in the class. *)
Lemma test_class_false (p : N → bool) (s : jsstring) (c : N) :
  test (search (Sym p)) s = false → c ∈ s → p c = false.
Proof.
  intros Hnone Hin. destruct (p c) eqn:Hp; [| done].
  apply list_elem_of_split in Hin as (pre & post & ->).
  assert (test (search (Sym p)) (pre ++ c :: post) = true) as Hyes; [| congruence].
  apply RegexFacts.test_search. exists pre, [c], post. split; [done | by constructor].
Qed.

Lemma existsb_false_not_elem (c : N) (chars : jsstring) :
  existsb (N.eqb c) chars = false → c ∉ chars.
Proof.
  intros Hnone Hin. assert (existsb (N.eqb c) chars = true) as Hyes; [| congruence].
  apply existsb_exists. exists c. split; [by apply list_elem_of_In | apply N.eqb_refl].
Qed.

Lemma elem_of_join_space (args : list jsstring) (arg : jsstring) (c : N) :
  arg ∈ args → c ∈ arg → c ∈ Js.join_space args.
Proof.
  induction args as [|a args IH]; [by intros ?%elem_of_nil |].
  intros Hin Hc. apply elem_of_cons in Hin as [->|Hin].
  - destruct args; simpl; [done |]. apply elem_of_app. by left.
  - destruct args as [|b args]; [by apply elem_of_nil in Hin |].
    change (c ∈ a ++ 32%N :: Js.join_space (b :: args)).
    apply elem_of_app. right. right. by apply IH.
Qed.

Section Validator.
Context `{Platform} (securityConfig : SecurityConfig).

(** X16.  What [validatePath] never lets through: a path it returns is
    the resolved normal form of an input that is not empty, not longer
    than [maxLength], has no [..] sequence and no control character; the
    path starts with a resolved allowed directory and with no resolved
    blocked directory; it is absolute only if the options allow that, and
    its extension, if it has one, is not a blocked one and is in the list
    of allowed ones when the options give such a list. *)
Theorem validatePath_returns_only_contained_paths input options p :
  validatePath securityConfig input options = Return p →
  p = path_resolve (path_normalize input) ∧
  input ≠ [] ∧ Z.of_nat (length input) <= maxLength options ∧
  ¬ Js.Contains (Js.str "..") input ∧
  (∀ c, c ∈ input → is_control c = false) ∧
  (∃ allowedDir, allowedDir ∈ allowedDirectories securityConfig ∧
                 Js.startsWith p (path_resolve allowedDir) = true) ∧
  (∀ blockedDir, blockedDir ∈ blockedDirectories securityConfig →
                 Js.startsWith p (path_resolve blockedDir) = false) ∧
  (path_isAbsolute (path_normalize input) = true → allowAbsolute options = true) ∧
  (toLowerCase (path_extname (path_normalize input)) ≠ [] →
   Js.arr_includes (blockedExtensions options)
     (toLowerCase (path_extname (path_normalize input))) = false) ∧
  (∀ allowed, allowedExtensions options = Some allowed →
   toLowerCase (path_extname (path_normalize input)) ≠ [] →
   Js.arr_includes allowed
     (toLowerCase (path_extname (path_normalize input))) = true).
Proof.
  unfold validatePath.
  destruct (Js.falsy input) eqn:Hempty; [done |].
  destruct (Z.gtb_spec (Z.of_nat (length input)) (maxLength options)); [done |].
  destruct (matches_any DANGEROUS_PATTERNS input) eqn:Hscan; [done |].
  destruct (Js.includes (path_normalize input) (Js.str "..")); [done |].
  destruct (path_isAbsolute (path_normalize input) && negb (allowAbsolute options))
    eqn:Habs; [done |].
  cbv zeta.
  destruct (negb (Js.falsy (toLowerCase (path_extname (path_normalize input)))) &&
            Js.arr_includes (blockedExtensions options)
              (toLowerCase (path_extname (path_normalize input))))
    eqn:Hblockedext; [done |].
  destruct (negb (Js.falsy (toLowerCase (path_extname (path_normalize input)))) &&
            match allowedExtensions options with
            | Some allowed => _
            | None => false
            end) eqn:Hallowedext; [done |].
  destruct (existsb _ (allowedDirectories securityConfig)) eqn:Hallowed;
    simpl; [| done].
  destruct (existsb _ (blockedDirectories securityConfig)) eqn:Hblocked; [done |].
  simpl. intros [= <-]. repeat split.
  - by destruct input.
  - done.
  - intros Hdots. apply SecurityFacts.traversal_pattern_matches in Hdots. congruence.
  - intros c Hc. apply (test_class_false (λ c, between 0 31 c || between 127 159 c) input c);
      [| done].
    apply (matches_any_false DANGEROUS_PATTERNS); [done |].
    unfold DANGEROUS_PATTERNS. do 11 apply list_elem_of_further. apply list_elem_of_here.
  - apply existsb_exists in Hallowed as (dir & Hin & Hstarts).
    exists dir. split; [by apply list_elem_of_In | done].
  - intros dir Hin. destruct (Js.startsWith _ (path_resolve dir)) eqn:Hstarts; [| done].
    assert (existsb (λ blockedDir,
              Js.startsWith (path_resolve (path_normalize input)) (path_resolve blockedDir))
              (blockedDirectories securityConfig) = true) as Hyes; [| congruence].
    apply existsb_exists. exists dir. split; [by apply list_elem_of_In | done].
  - intros Hisabs. rewrite Hisabs in Habs. by destruct (allowAbsolute options).
  - intros Hext. by destruct (toLowerCase (path_extname (path_normalize input))).
  - intros allowed Hlist Hext. rewrite Hlist in Hallowedext.
    destruct (toLowerCase (path_extname (path_normalize input))); [done |].
    by destruct (Js.arr_includes allowed _).
Qed.

(** X17.  What [validateCommand] never lets through: an accepted command
    is not empty, its first word in lower case is not a blocked command,
    neither the command nor any argument holds one of the characters
    [;&|`$(){}[]], and no argument is longer than 1000 characters. *)
Theorem validateCommand_accepts_only_plain_commands command args :
  validateCommand command args = Return tt →
  command ≠ [] ∧
  Js.arr_includes DANGEROUS_COMMANDS (toLowerCase (Js.split_space_head command)) = false ∧
  (∀ c, c ∈ command → c ∉ shell_metacharacters) ∧
  (∀ arg c, arg ∈ args → c ∈ arg → c ∉ shell_metacharacters) ∧
  Forall (λ arg, Z.of_nat (length arg) <= 1000) args.
Proof.
  unfold validateCommand.
  destruct (Js.falsy command) eqn:Hempty; [done |].
  destruct (Js.arr_includes DANGEROUS_COMMANDS _) eqn:Hbase; [done |].
  destruct (matches_any shellPatterns _) eqn:Hscan; [done |].
  destruct (existsb _ args) eqn:Hlong; [done |].
  intros _.
  assert (Hmeta : ∀ c, c ∈ command ++ 32%N :: Js.join_space args →
                       c ∉ shell_metacharacters).
  { intros c Hc. apply existsb_false_not_elem.
    apply (test_class_false (λ c, existsb (N.eqb c) (Js.str ";&|`$(){}[]"))
             (command ++ 32%N :: Js.join_space args) c); [| done].
    apply (matches_any_false shellPatterns); [done |].
    unfold shellPatterns, one_of. apply list_elem_of_here. }
  repeat split.
  - by destruct command.
  - intros c Hc. apply Hmeta, elem_of_app. by left.
  - intros arg c Harg Hc. apply Hmeta, elem_of_app. right. right.
    by eapply elem_of_join_space.
  - apply Forall_forall. intros arg Hin.
    destruct (Z.gtb_spec (Z.of_nat (length arg)) 1000) as [Hgt|]; [| done].
    assert (existsb (λ arg, Z.of_nat (length arg) >? 1000) args = true) as Hyes;
      [| congruence].
    apply existsb_exists. exists arg. split; [by apply list_elem_of_In |].
    by apply Z.gtb_lt.
Qed.

End Validator.

(** X16, a run. *)
Lemma validatePath_returns_only_contained_paths_run :
  Js.str "/home/user/project/notes.txt"
    = @path_resolve posix (@path_normalize posix (Js.str "notes.txt")) ∧
  ∃ allowedDir, allowedDir ∈ allowedDirectories Posix.defaultConfig ∧
    Js.startsWith (Js.str "/home/user/project/notes.txt")
      (@path_resolve posix allowedDir) = true.
Proof.
  pose proof (@validatePath_returns_only_contained_paths posix Posix.defaultConfig
                (Js.str "notes.txt") defaultOptions
                (Js.str "/home/user/project/notes.txt")) as Hrun.
  destruct Hrun as (Hp & _ & _ & _ & _ & Hallowed & _); [vm_compute; reflexivity |].
  split; [exact Hp | exact Hallowed].
Defined.

(** X17, a run. *)
Lemma validateCommand_accepts_only_plain_commands_run :
  Js.str "ls" ≠ [] ∧
  Forall (λ arg, Z.of_nat (length arg) <= 1000) [Js.str "-la"; Js.str "src"].
Proof.
  pose proof (@validateCommand_accepts_only_plain_commands posix
                (Js.str "ls") [Js.str "-la"; Js.str "src"]) as Hrun.
  destruct Hrun as (Hne & _ & _ & _ & Hargs); [vm_compute; reflexivity |].
  split; [exact Hne | exact Hargs].
Defined.

End SecurityUseFacts.

(** *** sanitizeInput and the security middleware *)

Module SanitizeFacts.
Import Regex RateLimit Sanitize.

(** Induction on values, with the items of an array. *)
Lemma value_induction (P : value → Prop) :
  (∀ s, P (VString s)) →
  (∀ items, Forall P items → P (VArray items)) →
  P VPrimitive →
  ∀ v, P v.
Proof.
  intros Hstring Harray Hprimitive. fix IH 1.
  intros [s|items|]; [apply Hstring | | apply Hprimitive].
  apply Harray. induction items as [|item items IHitems]; constructor;
    [apply IH | apply IHitems].
Qed.

Lemma trim_start_suffix (s : jsstring) : ∃ spaces, s = spaces ++ trim_start s.
Proof.
  induction s as [|c s [spaces IH]]; [by exists [] |]. simpl.
  destruct (is_space c); [| by exists []].
  exists (c :: spaces). simpl. by f_equal.
Qed.

Lemma trim_start_head (s : jsstring) :
  match trim_start s with c :: _ => is_space c = false | [] => True end.
Proof.
  induction s as [|c s IH]; [done |]. simpl. by destruct (is_space c) eqn:Hc.
Qed.

(** [trim] keeps a middle part of the string. *)
Lemma trim_middle (s : jsstring) : ∃ before after, s = before ++ trim s ++ after.
Proof.
  unfold trim. destruct (trim_start_suffix s) as [before Hbefore].
  destruct (trim_start_suffix (rev (trim_start s))) as [after Hafter].
  exists before, (rev after).
  rewrite <- rev_app_distr, <- Hafter, rev_involutive. exact Hbefore.
Qed.

Lemma trim_head (s : jsstring) :
  match trim s with c :: _ => is_space c = false | [] => True end.
Proof.
  unfold trim. destruct (trim_start_suffix (rev (trim_start s))) as [after Hafter].
  pose proof (trim_start_head s) as Hhead.
  apply (f_equal (@rev N)) in Hafter.
  rewrite rev_involutive, rev_app_distr in Hafter.
  destruct (rev (trim_start (rev (trim_start s)))) as [|c rest]; [done |].
  rewrite Hafter in Hhead. exact Hhead.
Qed.

Lemma sanitizeString_sanitized (s : jsstring) : sanitized (sanitizeString s).
Proof.
  unfold sanitizeString, sanitized.
  set (cleaned := filter (λ c, c ≠ 0%N) (filter (λ c, is_control c = false) s)).
  assert (Hclean : Forall (λ c, is_control c = false) cleaned).
  { apply Forall_forall. intros c Hc. unfold cleaned in Hc.
    apply list_elem_of_filter in Hc as [_ Hc].
    by apply list_elem_of_filter in Hc as [Hc _]. }
  destruct (trim_middle cleaned) as (before & after & Hmiddle).
  rewrite Hmiddle in Hclean.
  apply Forall_app in Hclean as [_ Hclean]. apply Forall_app in Hclean as [Hclean _].
  split; [by apply Forall_take |]. split.
  - rewrite length_take. lia.
  - pose proof (trim_head cleaned) as Hhead.
    by destruct (trim cleaned).
Qed.

Lemma sanitizeInput_all_sanitized (v : value) :
  all_strings sanitized (sanitizeInput v).
Proof.
  induction v as [s|items IH|] using value_induction.
  - apply sanitizeString_sanitized.
  - simpl. induction IH as [|item items Hitem _ IHall]; [done |]. by split.
  - done.
Qed.

Lemma sanitizeInput_shape (v : value) : shape (sanitizeInput v) = shape v.
Proof.
  induction v as [s|items IH|] using value_induction; [done | | done].
  simpl. f_equal. induction IH as [|item items Hitem _ IHshape]; [done |].
  simpl. by rewrite Hitem, IHshape.
Qed.

(** X18.  [sanitizeInput] keeps the shape of a value (arrays keep their
    length and nesting, a string stays a string), and every string of the
    result has no control character, has at most 10000 characters and
    does not begin with white space. *)
Theorem sanitizeInput_sanitizes_every_string (v : value) :
  all_strings sanitized (sanitizeInput v) ∧ shape (sanitizeInput v) = shape v.
Proof.
  split.
  - apply sanitizeInput_all_sanitized.
  - apply sanitizeInput_shape.
Qed.

Section Middleware.
Context {W R : Type} (operation : list value → W → result jsstring R * W).

(** X19.  The function [withSecurity] returns, with argument cleaning on
    and arguments made of strings, nested arrays and primitives.  When a
    rate-limit identifier is given, is not the empty string, and
    [checkLimit] refuses it, the operation is not run: the call throws
    the rate-limit message with the retry delay of [checkLimit] and the
    world is as before.  When [checkLimit] allows it, or when no
    identifier (or the empty string) is given and [checkLimit] is not
    called, the operation runs once on [sanitizeInput] of the arguments
    and its result or rejection is the result of the call.  Those
    arguments have the shape of the caller's and every string in them is
    sanitized. *)
Theorem withSecurity_guards_the_operation rateLimitId args now w rl :
  (∀ identifier,
     rateLimitId = Some identifier → identifier ≠ EmptyString →
     allowed (checkLimit identifier now rl).1 = false →
     withSecurity operation rateLimitId true args now w rl
     = (Throw (RateLimitUse.exceeded_message
                 (retryAfter (checkLimit identifier now rl).1)),
        w, (checkLimit identifier now rl).2)) ∧
  (∀ identifier,
     rateLimitId = Some identifier → identifier ≠ EmptyString →
     allowed (checkLimit identifier now rl).1 = true →
     withSecurity operation rateLimitId true args now w rl
     = ((operation (map sanitizeInput args) w).1,
        (operation (map sanitizeInput args) w).2,
        (checkLimit identifier now rl).2)) ∧
  (rateLimitId = None ∨ rateLimitId = Some EmptyString →
     withSecurity operation rateLimitId true args now w rl
     = ((operation (map sanitizeInput args) w).1,
        (operation (map sanitizeInput args) w).2, rl)) ∧
  Forall (all_strings sanitized) (map sanitizeInput args) ∧
  map shape (map sanitizeInput args) = map shape args.
Proof.
  unfold withSecurity. repeat split.
  - intros identifier -> Hne Hrefused.
    rewrite bool_decide_false by done.
    destruct (checkLimit identifier now rl) as [r rl1]. simpl in *.
    by rewrite Hrefused.
  - intros identifier -> Hne Hallowed.
    rewrite bool_decide_false by done.
    destruct (checkLimit identifier now rl) as [r rl1]. simpl in *.
    rewrite Hallowed. by destruct (operation _ w).
  - intros [-> | ->]; simpl; by destruct (operation _ w).
  - induction args as [|arg rest IH]; [done |].
    simpl. constructor; [apply sanitizeInput_all_sanitized | done].
  - induction args as [|arg rest IH]; [done |].
    simpl. by rewrite sanitizeInput_shape, IH.
Qed.

End Middleware.

(** X19, a run: a call under the identifier of the used-up window is
    refused; the operation, which counts its runs in the world, is not
    run, whatever the arguments. *)
Lemma withSecurity_guards_the_operation_run :
  withSecurity (λ (_ : list value) (runs : nat), (Return tt, S runs))
    (Some "u") true [VString (Js.str " notes.txt")] 750 0%nat spent
  = (Throw (RateLimitUse.exceeded_message (Some 1)), 0%nat, spent).
Proof.
  apply (proj1 (withSecurity_guards_the_operation
                  (λ (_ : list value) (runs : nat), (Return tt, S runs))
                  (Some "u") [VString (Js.str " notes.txt")] 750 0%nat spent)
           "u" eq_refl); [discriminate | reflexivity].
Defined.

End SanitizeFacts.

(** *** PerformanceMonitor *)

Module MonitorFacts.
Import Concurrency Monitor.

Section Metrics.
Context {Metric : Type}.

(** X20.  The metrics buffer holds the most recent [maxMetrics] metrics:
    after any sequence of [addMetric] calls on an empty buffer, it is the
    sequence without its oldest elements beyond the bound, and so never
    longer than [maxMetrics]. *)
Theorem addMetric_keeps_the_most_recent (history : list Metric) :
  foldl addMetric [] history = drop (length history - maxMetrics) history ∧
  (length (foldl addMetric [] history) ≤ maxMetrics)%nat.
Proof.
  assert (Hbuffer : foldl addMetric [] history
                    = drop (length history - maxMetrics) history).
  { induction history as [|metric history IH] using rev_ind; [done |].
    rewrite foldl_snoc, IH. unfold addMetric.
    generalize maxMetrics. intros bound.
    rewrite !length_app, length_drop. simpl length.
    destruct (Nat.ltb_spec bound (length history - (length history - bound) + 1))
      as [Hover|Hfits].
    - rewrite <- (drop_app_le history [metric] (length history - bound)) by lia.
      rewrite drop_drop. f_equal. lia.
    - replace (length history - bound)%nat with 0%nat by lia.
      replace (length history + 1 - bound)%nat with 0%nat by lia.
      by rewrite !drop_0. }
  split; [exact Hbuffer |]. rewrite Hbuffer, length_drop. lia.
Qed.

End Metrics.

Lemma step_attended (limit : Z) (ev : event) (w w' : Category) :
  1 <= limit → maxConcurrent (limiter w) = limit → counts_running w →
  step ev w = Some w' →
  maxConcurrent (limiter w') = limit ∧ attended w'.
Proof.
  intros Hlimit Hmax Hcount Hstep.
  unfold attended, counts_running in *.
  destruct ev as [id| |id ok]; simpl in Hstep.
  - unfold enter in Hstep.
    destruct (Z.geb_spec (current (limiter w)) (maxConcurrent (limiter w)))
      as [Hfull|Hroom]; simplify_eq; simpl.
    + split; [done |]. intros _. left.
      destruct (running w); [simpl in *; lia | done].
    + split; [done |]. intros _. left. by destruct (running w).
  - destruct (resolved w) as [|id rest]; [done |]. simplify_eq. simpl.
    split; [done |]. intros _. left. by destruct (running w).
  - destruct (remove_one id (running w)) as [running'|]; [| done].
    simpl in Hstep. unfold settle, release in Hstep. simpl in Hstep.
    destruct (queue (limiter w)) as [|next rest] eqn:Hqueue; simplify_eq; simpl.
    + split; [done |]. by rewrite Hqueue.
    + split; [done |]. intros _. right. by destruct (resolved w).
Qed.

Lemma run_attended (limit : Z) (evs : list event) (w w' : Category) :
  1 <= limit → maxConcurrent (limiter w) = limit → counts_running w → attended w →
  run evs w = Some w' → attended w'.
Proof.
  intros Hlimit. revert w.
  induction evs as [|ev evs IH]; intros w Hmax Hcount Hattended Hrun; simpl in Hrun.
  - by simplify_eq.
  - destruct (step ev w) as [w1|] eqn:Hstep; [| done]. simpl in Hrun.
    destruct (step_attended limit ev w w1) as [Hmax1 Hattended1]; [done.. |].
    apply (IH w1); [done | | done..].
    by eapply ConcurrencyFacts.step_counts_running.
Qed.

(** X21.  No waiter is stranded: with a limit of at least one, whatever
    the scheduler runs on a category, as long as a caller waits in the
    queue an operation is in flight or a woken caller is about to resume,
    so a [release] that admits the next waiter is still to come. *)
Theorem waiters_are_attended (limit : Z) (evs : list event) (w : Category) :
  1 <= limit → run evs (new_category limit) = Some w → attended w.
Proof.
  intros Hlimit Hrun.
  apply (run_attended limit evs (new_category limit) w); [done.. | | done].
  by intros Hqueue.
Qed.

(** X21, a run: the three waiters of the concrete run. *)
Lemma waiters_are_attended_run : attended after_three_waiters.
Proof.
  apply (waiters_are_attended 1 three_waiters after_three_waiters);
    [lia | vm_compute; reflexivity].
Defined.

(** With a limit below one, a call can only queue. *)
Lemma step_stranded (ev : event) (w w' : Category) :
  maxConcurrent (limiter w) <= 0 → current (limiter w) = 0 →
  running w = [] → resolved w = [] →
  step ev w = Some w' →
  maxConcurrent (limiter w') = maxConcurrent (limiter w) ∧
  current (limiter w') = 0 ∧ running w' = [] ∧ resolved w' = [] ∧
  ∃ id, ev = Call id ∧ queue (limiter w') = queue (limiter w) ++ [id].
Proof.
  intros Hmax Hcurrent Hrunning Hresolved Hstep.
  destruct ev as [id| |id ok]; simpl in Hstep.
  - unfold enter in Hstep.
    destruct (Z.geb_spec (current (limiter w)) (maxConcurrent (limiter w)));
      [| lia]. simplify_eq. simpl. repeat split; [done.. |]. by exists id.
  - by rewrite Hresolved in Hstep.
  - by rewrite Hrunning in Hstep.
Qed.

(** X22.  A limit of zero (or less) blocks its category for good: every
    event the scheduler can run is a call, each call queues, and no
    operation is ever started or woken. *)
Theorem nonpositive_limit_strands_every_caller (limit : Z) (evs : list event)
    (w : Category) :
  limit <= 0 → run evs (new_category limit) = Some w →
  running w = [] ∧ resolved w = [] ∧ evs = Call <$> queue (limiter w).
Proof.
  intros Hlimit.
  assert (Hgen : ∀ evs w0 w,
            maxConcurrent (limiter w0) <= 0 → current (limiter w0) = 0 →
            running w0 = [] → resolved w0 = [] → run evs w0 = Some w →
            running w = [] ∧ resolved w = [] ∧
            ∃ ids, evs = Call <$> ids ∧ queue (limiter w) = queue (limiter w0) ++ ids).
  { clear. intros evs. induction evs as [|ev evs IH];
      intros w0 w Hmax Hcurrent Hrunning Hresolved Hrun; simpl in Hrun.
    - simplify_eq. repeat split; [done.. |]. exists []. by rewrite app_nil_r.
    - destruct (step ev w0) as [w1|] eqn:Hstep; [| done]. simpl in Hrun.
      destruct (step_stranded ev w0 w1) as (Hmax1 & Hcurrent1 & Hrunning1 & Hresolved1
                                            & id & -> & Hqueue1); [done.. |].
      destruct (IH w1 w) as (Hr & Hs & ids & -> & Hqueue); [lia | done.. |].
      repeat split; [done.. |]. exists (id :: ids).
      split; [done |]. by rewrite Hqueue, Hqueue1, <- app_assoc. }
  intros Hrun.
  destruct (Hgen evs (new_category limit) w) as (Hr & Hs & ids & -> & Hqueue);
    [done.. |].
  simpl in Hqueue. by rewrite Hqueue.
Qed.

(** X22, a run: two calls on a category of limit zero. *)
Lemma nonpositive_limit_strands_every_caller_run :
  running (Build_Category (Build_ConcurrencyLimiter 0 0 [1%nat; 2%nat]) [] []
             [1%nat; 2%nat] []) = [].
Proof.
  apply (nonpositive_limit_strands_every_caller 0 [Call 1%nat; Call 2%nat]);
    [lia | vm_compute; reflexivity].
Defined.

(** X23.  What [getConcurrencyStats] reports is exact: in every state a
    run of the monitor reaches, the entry of a category gives as
    [current] the number of its operations in flight, and as [queued]
    the number of callers that queued and were neither admitted nor woken
    since. *)
Theorem getConcurrencyStats_counts (fileOps searches commands : Z)
    (evs : list (string * event)) (m : gmap string Category)
    (category : string) (stats : ConcurrencyStats) :
  monitor_run evs (new_monitor fileOps searches commands) = Some m →
  getConcurrencyStats m !! category = Some stats →
  ∃ w, m !! category = Some w ∧
       stats_current stats = Z.of_nat (length (running w)) ∧
       length (queued_history w)
       = (length (admitted_history w) + length (resolved w) + stats_queued stats)%nat.
Proof.
  intros Hrun Hstats. unfold getConcurrencyStats in Hstats.
  rewrite lookup_fmap in Hstats.
  destruct (m !! category) as [w|] eqn:Hlookup; [| done].
  simpl in Hstats. simplify_eq. exists w. simpl.
  pose proof (ConcurrencyFacts.monitor_counts_running _ _ _ _ _ Hrun) as Hinv.
  specialize (Hinv category w Hlookup) as [Hcount Hfifo].
  split; [done |]. split; [done |].
  unfold fifo in Hfifo. rewrite Hfifo, !length_app. lia.
Qed.

(** X23, a run: two calls of [fileOps] on a limit of one. *)
Lemma getConcurrencyStats_counts_run :
  ∃ w, (<["fileOps" := one_running_one_queued]> (new_monitor 1 5 5)) !! "fileOps"
       = Some w ∧
       1 = Z.of_nat (length (running w)) ∧
       length (queued_history w)
       = (length (admitted_history w) + length (resolved w) + 1)%nat.
Proof.
  apply (getConcurrencyStats_counts 1 5 5
           [("fileOps", Call 1%nat); ("fileOps", Call 2%nat)]
           (<["fileOps" := one_running_one_queued]> (new_monitor 1 5 5))
           "fileOps"
           {| stats_maxConcurrent := 1; stats_current := 1; stats_queued := 1 |});
    vm_compute; reflexivity.
Defined.

End MonitorFacts.
